(** * e_back: token aggregation service

    A shallow embedding of the aggregation-and-cache core of the service
    (services/fetcher.ts, services/aggregator.ts, services/cache.ts,
    config.ts, types/index.ts) together with the properties its
    specification states about it.

    Conventions.
    - A JavaScript string is a [string] (a sequence of 8-bit characters);
      [toLowerCase] folds the ASCII letters.  No proof about the merge
      unfolds [toLowerCase]: the results hold for any normalising function.
    - A JavaScript number is an IEEE 754 value, [SpecFloat.spec_float].
    - A [Map<string, V>] is an association list in insertion order, which is
      the order [Map.prototype.values] iterates in.
    - An [async] function is a function into [Settled]: the promise it
      returns either fulfils ([Ok]) or rejects ([Err]).  Functions that touch
      Redis or the upstream services thread a [World]. *)

From Stdlib Require Import Ascii String ZArith Floats.SpecFloat.
From stdpp Require Import base option list strings countable gmap sets.

Local Open Scope Z_scope.
#[local] Set Warnings "-register-all".

(** ** JavaScript values *)

Definition number := spec_float.

Definition num_zero : number := S754_zero false.
Definition num_nan : number := S754_nan.

(** [ToBoolean] on a number: [0], [-0] and [NaN] are falsy. *)
Definition number_truthy (n : number) : bool :=
  match n with
  | S754_zero _ | S754_nan => false
  | _ => true
  end.

(** [ToBoolean] on a string: only the empty string is falsy. *)
Definition string_truthy (s : string) : bool :=
  match s with
  | EmptyString => false
  | String _ _ => true
  end.

Definition lower_ascii (c : ascii) : ascii :=
  let n := nat_of_ascii c in
  if ((65 <=? n) && (n <=? 90))%nat then ascii_of_nat (n + 32) else c.

(** [String.prototype.toLowerCase] *)
Fixpoint toLowerCase (s : string) : string :=
  match s with
  | EmptyString => EmptyString
  | String c s' => String (lower_ascii c) (toLowerCase s')
  end.

(** The values that [JSON.parse] can produce and that an upstream response
    body can hold.  [undefined] is not one of them; where the source reads a
    property that may be missing, the model uses [option value] and [None]
    stands for [undefined]. *)
Inductive value : Type :=
  | Null
  | Bool (b : bool)
  | Number (n : number)
  | Str (s : string)
  | Array (items : list value)
  | Object (fields : list (string * value)).

(** Errors a promise can reject with. *)
Inductive Error : Type :=
  | AxiosError
  | TypeError
  | SyntaxError
  | ClientClosedError.

Inductive Settled (A : Type) : Type :=
  | Ok (a : A)
  | Err (e : Error).
Arguments Ok {A} a.
Arguments Err {A} e.

(** ** types/index.ts *)

Record TokenData : Type := mkTokenData {
  token_address : string;
  token_name : string;
  token_ticker : string;
  price_sol : number;
  market_cap_sol : number;
  volume_sol : number;
  liquidity_sol : number;
  transaction_count : number;
  price_1hr_change : number;
  protocol : string;
}.

(** The JavaScript object a [TokenData] is at run time. *)
Definition TokenData_value (t : TokenData) : value :=
  Object
    [ ("token_address", Str (token_address t));
      ("token_name", Str (token_name t));
      ("token_ticker", Str (token_ticker t));
      ("price_sol", Number (price_sol t));
      ("market_cap_sol", Number (market_cap_sol t));
      ("volume_sol", Number (volume_sol t));
      ("liquidity_sol", Number (liquidity_sol t));
      ("transaction_count", Number (transaction_count t));
      ("price_1hr_change", Number (price_1hr_change t));
      ("protocol", Str (protocol t)) ].

Definition tokens_value (l : list TokenData) : value :=
  Array (TokenData_value <$> l).

(** ** config.ts *)

Record Config : Type := {
  dexScreenerApi : string;
  jupiterApi : string;
  cacheTTL : Z;
}.

Definition config : Config := {|
  dexScreenerApi := "https://api.dexscreener.com/latest/dex";
  jupiterApi := "https://lite-api.jup.ag/tokens/v2/search";
  cacheTTL := 30;
|}.

(** ** Map<string, V> *)

Module JsMap.

Definition t (V : Type) : Type := list (string * V).

Definition empty {V} : t V := [].

Definition keys {V} (m : t V) : list string := m.*1.

(** [Map.prototype.has] *)
Definition has {V} (k : string) (m : t V) : bool :=
  bool_decide (k ∈ keys m).

(** [Map.prototype.set]: an existing key keeps its position and takes the
    new value; a new key goes to the end. *)
Fixpoint set {V} (k : string) (v : V) (m : t V) : t V :=
  match m with
  | [] => [(k, v)]
  | (k', v') :: m' =>
      if decide (k = k') then (k, v) :: m' else (k', v') :: set k v m'
  end.

(** [Array.from(m.values())] *)
Definition values {V} (m : t V) : list V := m.*2.

End JsMap.

(** ** services/aggregator.ts: mergeTokenData *)

(** The key a token is stored under: [token.token_address.toLowerCase()]. *)
Definition normalized (token : TokenData) : string :=
  toLowerCase (token_address token).

(** The first [forEach]: DexScreener tokens overwrite one another. *)
Definition addDexToken (tokenMap : JsMap.t TokenData) (token : TokenData)
  : JsMap.t TokenData :=
  if string_truthy (token_address token)
  then JsMap.set (toLowerCase (token_address token)) token tokenMap
  else tokenMap.

(** The second [forEach]: a Jupiter token is added only under a new key. *)
Definition addJupToken (tokenMap : JsMap.t TokenData) (token : TokenData)
  : JsMap.t TokenData :=
  if string_truthy (token_address token)
  then
    let address := toLowerCase (token_address token) in
    if JsMap.has address tokenMap
    then tokenMap
    else JsMap.set address token tokenMap
  else tokenMap.

Definition mergeTokenData (dexData jupData : list TokenData) : list TokenData :=
  let tokenMap := JsMap.empty in
  let tokenMap := foldl addDexToken tokenMap dexData in
  let tokenMap := foldl addJupToken tokenMap jupData in
  JsMap.values tokenMap.

(** *** The merge in the specification's words

    These definitions follow the specification, not the code; the theorems
    below compare them with [mergeTokenData]. *)

(** A record takes part in the merge only if its address is not empty. *)
Definition identified (l : list TokenData) : list TokenData :=
  filter (λ t, token_address t ≠ "") l.

(** The first record of every normalized address, in iteration order. *)
Fixpoint first_per_address (l : list TokenData) : list TokenData :=
  match l with
  | [] => []
  | t :: l' =>
      t :: filter (λ u, normalized u ≠ normalized t) (first_per_address l')
  end.

Definition with_address (k : string) (l : list TokenData) : list TokenData :=
  filter (λ t, normalized t = k) l.

Definition first_with_address (k : string) (l : list TokenData)
  : option TokenData := head (with_address k l).

Definition last_with_address (k : string) (l : list TokenData)
  : option TokenData := last (with_address k l).

(** What the primary sequence contributes: one record per normalized
    address, at the place of the first occurrence, holding the last one. *)
Definition primary_contribution (primary : list TokenData) : list TokenData :=
  (λ t, default t (last_with_address (normalized t) (identified primary)))
    <$> first_per_address (identified primary).

(** What the secondary sequence contributes: its records whose normalized
    address the primary sequence does not have. *)
Definition secondary_only (primary secondary : list TokenData)
  : list TokenData :=
  first_per_address
    (filter (λ s, normalized s ∉ normalized <$> identified primary)
            (identified secondary)).

(** The distinct normalized addresses of a sequence. *)
Definition addresses (l : list TokenData) : gset string :=
  list_to_set (normalized <$> identified l).

(** The map after the first loop, entry by entry. *)
Definition dex_entries (P : list TokenData) : JsMap.t TokenData :=
  (λ u, (normalized u, default u (last_with_address (normalized u) P)))
    <$> first_per_address P.

(** ** The JavaScript built-ins the services call

    [parseFloat] and the [+] operator coerce their operands; the coercions
    are not modelled.  Both are left open, and both may throw (an operand
    whose [toString] property is not callable makes them throw a
    [TypeError]). *)
Class Coercions : Type := {
  parseFloat : value → Settled number;
  js_plus : value → value → Settled value;
}.

(** What [JSON.stringify] writes for a number and [JSON.parse] reads back:
    [NaN] and the infinities are written as [null], negative zero as [0]. *)
Definition number_toJSON (n : number) : value :=
  match n with
  | S754_nan | S754_infinity _ => Null
  | S754_zero _ => Number (S754_zero false)
  | S754_finite _ _ _ => Number n
  end.

(** [JSON.parse(JSON.stringify(v))] *)
Fixpoint toJSON (v : value) : value :=
  match v with
  | Number n => number_toJSON n
  | Array items => Array (toJSON <$> items)
  | Object fields => Object ((λ kv, (kv.1, toJSON kv.2)) <$> fields)
  | Null | Bool _ | Str _ => v
  end.

(** [JSON.stringify] on a [TokenData[]] and [JSON.parse].  The text format
    is not modelled; what is used of it is that parsing the text of an array
    gives the array back up to [toJSON], and that the text is never the empty
    string. *)
Class JSON : Type := {
  JSON_stringify : list TokenData → string;
  JSON_parse : string → Settled value;
  JSON_parse_stringify l :
    JSON_parse (JSON_stringify l) = Ok (toJSON (tokens_value l));
  JSON_stringify_truthy l : string_truthy (JSON_stringify l) = true;
}.

(** ** services/fetcher.ts *)

(** [try { body } catch (error) { handler }] *)
Definition try_catch {A} (body : Settled A) (handler : Error → Settled A)
  : Settled A :=
  match body with
  | Ok a => Ok a
  | Err e => handler e
  end.

#[global] Instance Settled_ret : MRet Settled := λ A a, Ok a.

#[global] Instance Settled_bind : MBind Settled := λ A B k x,
  match x with
  | Ok a => k a
  | Err e => Err e
  end.

(** [ToBoolean] on a value that may be [undefined]. *)
Definition truthy (v : option value) : bool :=
  match v with
  | None | Some Null => false
  | Some (Bool b) => b
  | Some (Number n) => number_truthy n
  | Some (Str s) => string_truthy s
  | Some (Array _) | Some (Object _) => true
  end.

Fixpoint own_property (name : string) (fields : list (string * value))
  : option value :=
  match fields with
  | [] => None
  | (k, v) :: fields' =>
      if decide (k = name) then Some v else own_property name fields'
  end.

(** [o.name].  Reading a property of [null] or [undefined] throws; strings,
    numbers, booleans and arrays have none of the properties the adapters
    read, and neither has [Object.prototype]. *)
Definition member (o : option value) (name : string) : Settled (option value) :=
  match o with
  | None | Some Null => Err TypeError
  | Some (Object fields) => Ok (own_property name fields)
  | Some _ => Ok None
  end.

(** [o?.name] *)
Definition optional_member (o : option value) (name : string)
  : Settled (option value) :=
  match o with
  | None | Some Null => Ok None
  | Some _ => member o name
  end.

(** [a || b] *)
Definition or_else (a : option value) (b : value) : value :=
  match a with
  | Some v => if truthy a then v else b
  | None => b
  end.

(** [Array.prototype.map] with a callback that may throw. *)
Fixpoint map_callback {A B} (f : A → Settled B) (l : list A)
  : Settled (list B) :=
  match l with
  | [] => Ok []
  | a :: l' =>
      b ← f a;
      bs ← map_callback f l';
      Ok (b :: bs)
  end.

(** [xs.map(f)]: only an array has the method; on anything else the call
    throws. *)
Definition call_map (xs : option value) (f : value → Settled value)
  : Settled (list value) :=
  match xs with
  | Some (Array items) => map_callback f items
  | _ => Err TypeError
  end.

(** What the network does with a GET request. *)
Inductive HttpOutcome : Type :=
  | NetworkError
  | HttpResponse (status : Z) (data : value).

Definition Network : Type := string → HttpOutcome.

Record AxiosResponse : Type := {
  status : Z;
  data : value;
}.

(** [axios.get(url)]: rejects on a transport error and on a status outside
    2xx (the default [validateStatus]). *)
Definition axios_get (net : Network) (url : string) : Settled AxiosResponse :=
  match net url with
  | NetworkError => Err AxiosError
  | HttpResponse st body =>
      if decide (200 ≤ st < 300)
      then Ok {| status := st; data := body |}
      else Err AxiosError
  end.

Section fetcher.
Context `{Coercions}.

Definition dexScreenerUrl (query : string) : string :=
  dexScreenerApi config +:+ "/search?q=" +:+ query.

Definition jupiterUrl (query : string) : string :=
  jupiterApi config +:+ "?query=" +:+ query.

(** The callback of [response.data.pairs.map]. *)
Definition dexScreenerToken (pair : value) : Settled value :=
  baseToken ← member (Some pair) "baseToken";
  address ← optional_member baseToken "address";
  name ← optional_member baseToken "name";
  symbol ← optional_member baseToken "symbol";
  priceNative ← member (Some pair) "priceNative";
  price_sol ← parseFloat (or_else priceNative (Str "0"));
  fdv ← member (Some pair) "fdv";
  volume ← member (Some pair) "volume";
  volume_h24 ← optional_member volume "h24";
  liquidity ← member (Some pair) "liquidity";
  liquidity_usd ← optional_member liquidity "usd";
  txns ← member (Some pair) "txns";
  txns_h24 ← optional_member txns "h24";
  buys ← optional_member txns_h24 "buys";
  sells ← optional_member txns_h24 "sells";
  transaction_count ←
    js_plus (or_else buys (Number num_zero)) (or_else sells (Number num_zero));
  priceChange ← member (Some pair) "priceChange";
  priceChange_h1 ← optional_member priceChange "h1";
  dexId ← member (Some pair) "dexId";
  Ok (Object
    [ ("token_address", or_else address (Str ""));
      ("token_name", or_else name (Str ""));
      ("token_ticker", or_else symbol (Str ""));
      ("price_sol", Number price_sol);
      ("market_cap_sol", or_else fdv (Number num_zero));
      ("volume_sol", or_else volume_h24 (Number num_zero));
      ("liquidity_sol", or_else liquidity_usd (Number num_zero));
      ("transaction_count", transaction_count);
      ("price_1hr_change", or_else priceChange_h1 (Number num_zero));
      ("protocol", or_else dexId (Str "")) ]).

(** The body of the [try] block. *)
Definition fetchDexScreenerData_try (net : Network) (query : string)
  : Settled (list value) :=
  response ← axios_get net (dexScreenerUrl query);
  if truthy (Some (data response)) then
    pairs ← member (Some (data response)) "pairs";
    if truthy pairs
    then call_map pairs dexScreenerToken
    else Ok []
  else Ok [].

Definition fetchDexScreenerData (net : Network) (query : string)
  : Settled (list value) :=
  try_catch (fetchDexScreenerData_try net query) (λ error, Ok []).

(** The callback of [response.data.map]. *)
Definition jupiterToken (token : value) : Settled value :=
  address ← member (Some token) "address";
  name ← member (Some token) "name";
  symbol ← member (Some token) "symbol";
  Ok (Object
    [ ("token_address", or_else address (Str ""));
      ("token_name", or_else name (Str ""));
      ("token_ticker", or_else symbol (Str ""));
      ("price_sol", Number num_zero);
      ("market_cap_sol", Number num_zero);
      ("volume_sol", Number num_zero);
      ("liquidity_sol", Number num_zero);
      ("transaction_count", Number num_zero);
      ("price_1hr_change", Number num_zero);
      ("protocol", Str "Jupiter") ]).

Definition isArray (v : value) : bool :=
  match v with
  | Array _ => true
  | _ => false
  end.

Definition fetchJupiterData_try (net : Network) (query : string)
  : Settled (list value) :=
  response ← axios_get net (jupiterUrl query);
  if truthy (Some (data response)) && isArray (data response)
  then call_map (Some (data response)) jupiterToken
  else Ok [].

Definition fetchJupiterData (net : Network) (query : string)
  : Settled (list value) :=
  try_catch (fetchJupiterData_try net query) (λ error, Ok []).

End fetcher.

(** ** The world the orchestrator runs in

    The orchestrator takes what an adapter resolves to at the type the
    adapter declares, [TokenData[]]; the world says what that is for each
    adapter and query.  It also holds the Redis client and the clock. *)

Inductive Adapter : Type :=
  | DexScreener
  | Jupiter.

(** The Redis client: connected to a store, or unable to serve commands, in
    which case every command rejects.  A stored string carries the time at
    which it expires. *)
Inductive RedisClient : Type :=
  | Ready (db : gmap string (string * Z))
  | Unreachable.

Record World : Type := mkWorld {
  redis : RedisClient;
  (** the clock, in seconds *)
  now : Z;
  (** what a call of an adapter resolves to; adapters never reject *)
  upstream : Adapter → string → list TokenData;
  (** the adapter calls made so far, latest first *)
  calls : list (Adapter * string);
}.

Definition with_redis (r : RedisClient) (w : World) : World :=
  {| redis := r; now := now w; upstream := upstream w; calls := calls w |}.

Definition with_call (c : Adapter * string) (w : World) : World :=
  {| redis := redis w; now := now w; upstream := upstream w;
     calls := c :: calls w |}.

(** Time passing between two requests. *)
Definition elapse (seconds : Z) (w : World) : World :=
  {| redis := redis w; now := now w + seconds; upstream := upstream w;
     calls := calls w |}.

(** An [async] function of the services: it runs in a world and settles. *)
Definition M (A : Type) : Type := World → Settled A * World.

#[global] Instance M_ret : MRet M := λ A a w, (Ok a, w).

#[global] Instance M_bind : MBind M := λ A B k x w,
  match x w with
  | (Ok a, w') => k a w'
  | (Err e, w') => (Err e, w')
  end.

(** A synchronous call that may throw, inside an [async] function. *)
Definition settle {A} (x : Settled A) : M A := λ w, (x, w).

(** ** services/cache.ts *)

Module CacheService.

(** Redis [GET]: the stored string, unless it has expired. *)
Definition client_get (db : gmap string (string * Z)) (t : Z) (key : string)
  : option string :=
  match db !! key with
  | Some (v, expires) => if decide (t < expires) then Some v else None
  | None => None
  end.

(** Redis [SET key value EX ttl] *)
Definition client_set (db : gmap string (string * Z)) (t : Z)
    (key value : string) (EX : Z) : gmap string (string * Z) :=
  <[key := (value, t + EX)]> db.

Definition get (key : string) : M (option string) := λ w,
  match redis w with
  | Ready db => (Ok (client_get db (now w) key), w)
  | Unreachable => (Err ClientClosedError, w)
  end.

Definition set (key value : string) (ttl : option Z) : M unit := λ w,
  let ttl := default (cacheTTL config) ttl in
  match redis w with
  | Ready db =>
      (Ok (), with_redis (Ready (client_set db (now w) key value ttl)) w)
  | Unreachable => (Err ClientClosedError, w)
  end.

End CacheService.

(** ** services/aggregator.ts: getAggregatedData *)

(** [fetcherService.fetchDexScreenerData(query)] and
    [fetcherService.fetchJupiterData(query)], as the orchestrator sees them:
    a call is recorded and resolves to a [TokenData[]]. *)
Definition fetcherService (a : Adapter) (query : string) : M (list TokenData) :=
  λ w, (Ok (upstream w a query), with_call (a, query) w).

Definition cacheKey (query : string) : string := "tokens_v5:" +:+ query.

Section aggregator.
Context `{JSON}.

(** The path taken when [cachedData] is falsy. *)
Definition fetchFresh (query : string) : M value :=
  dexData ← fetcherService DexScreener query;
  jupData ← fetcherService Jupiter query;
  let mergedTokens := mergeTokenData dexData jupData in
  _ ← CacheService.set (cacheKey query) (JSON_stringify mergedTokens) None;
  mret (tokens_value mergedTokens).

Definition getAggregatedData (query : string) : M value :=
  cachedData ← CacheService.get (cacheKey query);
  match cachedData with
  | Some blob =>
      if string_truthy blob
      then settle (JSON_parse blob)
      else fetchFresh query
  | None => fetchFresh query
  end.

End aggregator.

(** ** app.ts: GET /api/tokens *)

Definition api_tokens `{JSON} (q : option string)
  : World → (Z * value) * World :=
  λ w,
    let query := match q with
                 | Some s => if string_truthy s then s else "SOL"
                 | None => "SOL"
                 end in
    match getAggregatedData query w with
    | (Ok data, w') => ((200, data), w')
    | (Err error, w') =>
        ((500, Object [("error", Str "Internal Server Error")]), w')
    end.

(** ** socket.ts: the periodic push

    The callback of [setInterval]: it asks for the fixed query and emits the
    result to every client as a [price-update] event; when the call rejects,
    the error is logged and nothing is emitted. *)

Definition pushQuery : string := "SOL".

Definition pushUpdate `{JSON} : World → list (string * value) * World :=
  λ w,
    match getAggregatedData pushQuery w with
    | (Ok data, w') => ([("price-update", data)], w')
    | (Err error, w') => ([], w')
    end.

(** ** Notions the statements about the cache use *)

(** What a cache miss fetches and merges. *)
Definition fresh_tokens (query : string) (w : World) : list TokenData :=
  mergeTokenData (upstream w DexScreener query) (upstream w Jupiter query).

(** The world after a cache miss has been served. *)
Definition after_miss `{JSON} (query : string) (w : World)
    (db : gmap string (string * Z)) : World :=
  {| redis := Ready (CacheService.client_set db (now w) (cacheKey query)
                       (JSON_stringify (fresh_tokens query w))
                       (cacheTTL config));
     now := now w;
     upstream := upstream w;
     calls := (Jupiter, query) :: (DexScreener, query) :: calls w |}.

(** A number that [JSON.stringify] and [JSON.parse] give back unchanged. *)
Definition number_json_exact (n : number) : Prop :=
  match n with
  | S754_finite _ _ _ | S754_zero false => True
  | S754_zero true | S754_infinity _ | S754_nan => False
  end.

Definition TokenData_json_exact (t : TokenData) : Prop :=
  number_json_exact (price_sol t) ∧ number_json_exact (market_cap_sol t) ∧
  number_json_exact (volume_sol t) ∧ number_json_exact (liquidity_sol t) ∧
  number_json_exact (transaction_count t) ∧
  number_json_exact (price_1hr_change t).

(** ** A runtime to run the model on

    Instances of [Coercions] and [JSON] that compute.  They show that the
    laws of [JSON] can be met and let the examples evaluate; every theorem is
    proved for all instances. *)

Fixpoint digits_value (acc : N) (s : string) : option N :=
  match s with
  | EmptyString => Some acc
  | String c s' =>
      let d := N_of_ascii c in
      if ((48 <=? d) && (d <=? 57))%N
      then digits_value (10 * acc + (d - 48))%N s'
      else None
  end.

Definition double_of_N (n : N) : number :=
  binary_normalize 53 1024 (Z.of_N n) 0 false.

(** [parseFloat] on numbers and on strings of decimal digits, [NaN] on the
    rest; [+] on two numbers.  Operands that [+] would coerce to strings are
    outside what this instance computes. *)
#[local] Instance example_coercions : Coercions := {|
  parseFloat v :=
    match v with
    | Number n => Ok n
    | Str (String c s) =>
        Ok (from_option double_of_N num_nan (digits_value 0 (String c s)))
    | _ => Ok num_nan
    end;
  js_plus a b :=
    match a, b with
    | Number x, Number y => Ok (Number (SFadd 53 1024 x y))
    | _, _ => Err TypeError
    end;
|}.

#[local] Instance number_eq_dec : EqDecision number.
Proof. solve_decision. Defined.

#[local] Instance number_countable : Countable number.
Proof.
  refine (inj_countable'
    (λ n, match n with
          | S754_zero s => inl (inl s)
          | S754_infinity s => inl (inr s)
          | S754_nan => inr (inl ())
          | S754_finite s m e => inr (inr (s, m, e))
          end)
    (λ c, match c with
          | inl (inl s) => S754_zero s
          | inl (inr s) => S754_infinity s
          | inr (inl _) => S754_nan
          | inr (inr (s, m, e)) => S754_finite s m e
          end) _).
  by intros [].
Defined.

#[local] Instance TokenData_eq_dec : EqDecision TokenData.
Proof. solve_decision. Defined.

#[local] Instance TokenData_countable : Countable TokenData.
Proof.
  refine (inj_countable'
    (λ t, (token_address t, token_name t, token_ticker t, price_sol t,
           market_cap_sol t, volume_sol t, liquidity_sol t,
           transaction_count t, price_1hr_change t, protocol t))
    (λ '(a, n, k, p, m, v, l, c, h, d), mkTokenData a n k p m v l c h d) _).
  by intros [].
Defined.

(** A positive number written as a string of binary digits. *)
Fixpoint string_of_pos (p : positive) : string :=
  match p with
  | xH => "h"
  | xO p' => String "o" (string_of_pos p')
  | xI p' => String "i" (string_of_pos p')
  end.

Fixpoint pos_of_string (s : string) : option positive :=
  match s with
  | String c EmptyString => if decide (c = "h"%char) then Some xH else None
  | String c s' =>
      if decide (c = "o"%char) then xO <$> pos_of_string s'
      else if decide (c = "i"%char) then xI <$> pos_of_string s'
      else None
  | EmptyString => None
  end.

Definition example_stringify (l : list TokenData) : string :=
  string_of_pos (encode l).

Definition example_parse (s : string) : Settled value :=
  match pos_of_string s with
  | Some p =>
      match decode p with
      | Some l => Ok (toJSON (tokens_value l))
      | None => Err SyntaxError
      end
  | None => Err SyntaxError
  end.

(** ** Fixtures *)

(** A finite double, (-1)^negative * mantissa * 2^exponent. *)
Definition double (negative : bool) (mantissa : positive) (exponent : Z)
  : number := S754_finite negative mantissa exponent.

(** The fixtures of [aggregator.test.ts]. *)
Definition mockTokenA : TokenData :=
  {| token_address := "0x123"; token_name := "Token A";
     token_ticker := "TKA";
     price_sol := double false 6755399441055744 (-52);         (* 1.5 *)
     market_cap_sol := double false 8589934592000000 (-33);    (* 1000000 *)
     volume_sol := double false 6871947673600000 (-37);        (* 50000 *)
     liquidity_sol := double false 6871947673600000 (-36);     (* 100000 *)
     transaction_count := double false 7036874417766400 (-46); (* 100 *)
     price_1hr_change := double false 5854679515581645 (-50);  (* 5.2 *)
     protocol := "dex1" |}.

Definition mockTokenB : TokenData :=
  {| token_address := "0x456"; token_name := "Token B";
     token_ticker := "TKB";
     price_sol := double false 5629499534213120 (-51);         (* 2.5 *)
     market_cap_sol := double false 8589934592000000 (-32);    (* 2000000 *)
     volume_sol := double false 5153960755200000 (-36);        (* 75000 *)
     liquidity_sol := double false 5153960755200000 (-35);     (* 150000 *)
     transaction_count := double false 7036874417766400 (-45); (* 200 *)
     price_1hr_change := double true 6980579422424269 (-51);   (* -3.1 *)
     protocol := "dex2" |}.

Definition mockDexData : list TokenData := [mockTokenA; mockTokenB].

Definition jupiterRecord (address name ticker : string) : TokenData :=
  {| token_address := address; token_name := name; token_ticker := ticker;
     price_sol := num_zero; market_cap_sol := num_zero;
     volume_sol := num_zero; liquidity_sol := num_zero;
     transaction_count := num_zero; price_1hr_change := num_zero;
     protocol := "Jupiter" |}.

Definition mockJupData : list TokenData :=
  [ jupiterRecord "0x123" "Token A" "TKA";
    jupiterRecord "0x789" "Token C" "TKC" ].

(** Scenario A of the specification: the secondary record spells the address
    in upper case. *)
Definition scenarioA_primary : list TokenData := [mockTokenA].

Definition scenarioA_secondary : list TokenData :=
  [ jupiterRecord "0X123" "Token A" "TKA";
    jupiterRecord "0x789" "Token C" "TKC" ].

(** Two secondary records whose addresses differ only in case. *)
Definition earlier : TokenData := jupiterRecord "abc" "earlier" "E".
Definition later : TokenData := jupiterRecord "ABC" "later" "L".

Definition mockUpstream (a : Adapter) (query : string) : list TokenData :=
  match a with
  | DexScreener => mockDexData
  | Jupiter => mockJupData
  end.

(** An empty cache at time 0. *)
Definition coldWorld : World :=
  {| redis := Ready ∅; now := 0; upstream := mockUpstream; calls := [] |}.

(** The Redis client cannot serve commands. *)
Definition downWorld : World :=
  {| redis := Unreachable; now := 0; upstream := mockUpstream; calls := [] |}.

(** A record as the DexScreener adapter builds it from a [priceNative] that
    is not a number: [parseFloat] gives [NaN]. *)
Definition nanToken : TokenData :=
  {| token_address := "0xabc"; token_name := "Token N"; token_ticker := "TKN";
     price_sol := num_nan; market_cap_sol := num_zero;
     volume_sol := num_zero; liquidity_sol := num_zero;
     transaction_count := num_zero; price_1hr_change := num_zero;
     protocol := "dex1" |}.

Definition nanWorld : World :=
  {| redis := Ready ∅; now := 0;
     upstream := λ a _, match a with
                        | DexScreener => [nanToken]
                        | Jupiter => []
                        end;
     calls := [] |}.

Definition exampleDexScreenerBody : value :=
  Object
    [ ("schemaVersion", Str "1.0.0");
      ("pairs", Array
        [ Object
            [ ("dexId", Str "dex1");
              ("baseToken", Object [ ("address", Str "0x123");
                                     ("name", Str "Token A");
                                     ("symbol", Str "TKA") ]);
              ("priceNative", Str "15");
              ("txns", Object
                 [ ("h24", Object
                      [ ("buys", Number (double false 7036874417766400 (-46)));
                        ("sells", Number (double false 7036874417766400 (-46)))
                      ]) ]);
              ("fdv", Number (double false 8589934592000000 (-33))) ];
          Object [ ("priceNative", Str "abc") ] ]) ].

Definition deadNetwork : Network := λ _, NetworkError.

Definition blockedNetwork : Network :=
  λ _, HttpResponse 403 (Str "Forbidden").

Definition oddNetwork : Network := λ url,
  if decide (url = dexScreenerUrl "SOL")
  then HttpResponse 200 (Object [("pairs", Str "none")])
  else HttpResponse 200 (Array [Null]).

(** ** Notions the further properties use *)

(** Calls of [getAggregatedData] for one query, each a delay after the
    one before. *)
Fixpoint repeated_calls `{JSON} (query : string) (delays : list Z) (w : World)
  : list (Settled value) * World :=
  match delays with
  | [] => ([], w)
  | d :: delays' =>
      let '(r, w1) := getAggregatedData query (elapse d w) in
      let '(rs, w2) := repeated_calls query delays' w1 in
      (r :: rs, w2)
  end.

(** The property names of a [TokenData], in the order of the interface. *)
Definition TokenData_keys : list string :=
  [ "token_address"; "token_name"; "token_ticker"; "price_sol";
    "market_cap_sol"; "volume_sol"; "liquidity_sol"; "transaction_count";
    "price_1hr_change"; "protocol" ].

(** The property names of a value, when it is an object. *)
Definition keys_of (v : value) : list string :=
  match v with
  | Object fields => fields.*1
  | _ => []
  end.

(** [v.name], for a value that is not [null]. *)
Definition field (name : string) (v : value) : option value :=
  match v with
  | Object fields => own_property name fields
  | _ => None
  end.

(** The property [name] of a record holds a value that is truthy or is the
    default [d]: what [x || d] can be. *)
Definition defaulted (name : string) (d : value) (v : value) : Prop :=
  ∃ x, field name v = Some x ∧ (x = d ∨ truthy (Some x) = true).

(** What the Jupiter callback returns for an element that is not [null]. *)
Definition jupiterRecordOf (token : value) : value :=
  Object
    [ ("token_address", or_else (field "address" token) (Str ""));
      ("token_name", or_else (field "name" token) (Str ""));
      ("token_ticker", or_else (field "symbol" token) (Str ""));
      ("price_sol", Number num_zero);
      ("market_cap_sol", Number num_zero);
      ("volume_sol", Number num_zero);
      ("liquidity_sol", Number num_zero);
      ("transaction_count", Number num_zero);
      ("price_1hr_change", Number num_zero);
      ("protocol", Str "Jupiter") ].

(** What a record of the DexScreener adapter looks like whatever the
    response held: the ten properties, a number as price, and text and
    numbers that are truthy or the default. *)
Definition dexScreenerShape (r : value) : Prop :=
  keys_of r = TokenData_keys
  ∧ (∃ n, field "price_sol" r = Some (Number n))
  ∧ defaulted "token_address" (Str "") r
  ∧ defaulted "token_name" (Str "") r
  ∧ defaulted "token_ticker" (Str "") r
  ∧ defaulted "market_cap_sol" (Number num_zero) r
  ∧ defaulted "volume_sol" (Number num_zero) r
  ∧ defaulted "liquidity_sol" (Number num_zero) r
  ∧ defaulted "price_1hr_change" (Number num_zero) r
  ∧ defaulted "protocol" (Str "") r.

(** What a record of the Jupiter adapter looks like: the ten properties,
    the protocol [Jupiter], every number 0, and text that is truthy or
    empty. *)
Definition jupiterShape (r : value) : Prop :=
  keys_of r = TokenData_keys
  ∧ field "protocol" r = Some (Str "Jupiter")
  ∧ Forall (λ name, field name r = Some (Number num_zero))
      [ "price_sol"; "market_cap_sol"; "volume_sol"; "liquidity_sol";
        "transaction_count"; "price_1hr_change" ]
  ∧ defaulted "token_address" (Str "") r
  ∧ defaulted "token_name" (Str "") r
  ∧ defaulted "token_ticker" (Str "") r.

Definition exampleNetwork : Network :=
  λ _, HttpResponse 200 exampleDexScreenerBody.

(** A cache entry that is not JSON text. *)
Definition corruptWorld : World :=
  {| redis := Ready {[ "tokens_v5:SOL" := ("x", 30) ]}; now := 0;
     upstream := mockUpstream; calls := [] |}.


Definition jupiterItems : list value :=
  [ Object [("address", Str "0x789"); ("name", Str "Token C");
            ("symbol", Str "TKC")];
    Object [("address", Null)];
    Str "stray" ].

Definition jupiterNetwork : Network :=
  λ _, HttpResponse 200 (Array jupiterItems).

(** * Properties *)

(** ** Insertion-ordered maps *)

Section jsmap.
Context {V : Type}.
Implicit Types (m : JsMap.t V) (k : string) (v : V).

Lemma JsMap_has_spec k m : JsMap.has k m = true ↔ k ∈ JsMap.keys m.
Proof. unfold JsMap.has. by rewrite bool_decide_eq_true. Qed.

Lemma JsMap_set_new k v m :
  k ∉ JsMap.keys m → JsMap.set k v m = m ++ [(k, v)].
Proof.
  induction m as [|[k' v'] m IH]; simpl; [done|].
  rewrite not_elem_of_cons. intros [Hne Hnotin].
  destruct (decide (k = k')); [done|]. by rewrite IH.
Qed.

(** Setting a key in a map whose entries are computed from a list of
    distinct keys: the entry of that key changes in place, or a new entry
    is appended. *)
Lemma JsMap_set_fmap {A} (key : A → string) (g : A → V) (l : list A) k v :
  NoDup (key <$> l) →
  JsMap.set k v ((λ a, (key a, g a)) <$> l) =
    if decide (k ∈ key <$> l)
    then (λ a, (key a, if decide (key a = k) then v else g a)) <$> l
    else ((λ a, (key a, g a)) <$> l) ++ [(k, v)].
Proof.
  induction l as [|a l IH]; csimpl.
  - done.
  - rewrite NoDup_cons. intros [Hfresh Hnodup].
    destruct (decide (k = key a)) as [->|Hne].
    + rewrite decide_True by left. rewrite decide_True by done.
      f_equal. apply list_fmap_ext. intros i b Hb.
      rewrite decide_False; [done|]. intros Heq. apply Hfresh.
      rewrite <- Heq. apply list_elem_of_fmap. exists b. split; [done|].
      by eapply list_elem_of_lookup_2.
    + rewrite IH by done. rewrite (decide_False (P := key a = k)) by done.
      destruct (decide (k ∈ key <$> l)) as [Hin|Hnotin].
      * rewrite decide_True by (by right). done.
      * rewrite decide_False; [done|].
        rewrite not_elem_of_cons. done.
Qed.

End jsmap.

(** ** The merge: how the two loops build the map *)

Lemma string_truthy_spec s : string_truthy s = true ↔ s ≠ "".
Proof. destruct s; simpl; split; congruence. Qed.

Lemma foldl_addDexToken m dexData :
  foldl addDexToken m dexData =
  foldl (λ m t, JsMap.set (normalized t) t m) m (identified dexData).
Proof.
  revert m. induction dexData as [|t l IH]; intros m; [done|].
  unfold identified in *. rewrite filter_cons. simpl. rewrite IH.
  unfold addDexToken. destruct (string_truthy (token_address t)) eqn:Ht.
  - apply string_truthy_spec in Ht. by rewrite decide_True.
  - rewrite decide_False; [done|].
    intros Hne. apply string_truthy_spec in Hne. congruence.
Qed.

Lemma foldl_addJupToken m jupData :
  foldl addJupToken m jupData =
  foldl (λ m t, if JsMap.has (normalized t) m then m
                else JsMap.set (normalized t) t m) m (identified jupData).
Proof.
  revert m. induction jupData as [|t l IH]; intros m; [done|].
  unfold identified in *. rewrite filter_cons. simpl. rewrite IH.
  unfold addJupToken. destruct (string_truthy (token_address t)) eqn:Ht.
  - apply string_truthy_spec in Ht. by rewrite decide_True.
  - rewrite decide_False; [done|].
    intros Hne. apply string_truthy_spec in Hne. congruence.
Qed.

Lemma first_per_address_snoc l t :
  first_per_address (l ++ [t]) =
  first_per_address l ++
    (if decide (normalized t ∈ normalized <$> l) then [] else [t]).
Proof.
  induction l as [|a l IH]; csimpl.
  - done.
  - rewrite IH, filter_app. f_equal. f_equal.
    destruct (decide (normalized t = normalized a)) as [Heq|Hne].
    + rewrite (decide_True (P := normalized t ∈ _ :: _)) by (rewrite Heq; left).
      destruct (decide (normalized t ∈ normalized <$> l)); [done|].
      rewrite filter_cons, decide_False; [done|]. naive_solver.
    + destruct (decide (normalized t ∈ normalized <$> l)) as [Hin|Hnotin].
      * by rewrite decide_True by (by right).
      * rewrite decide_False by (rewrite not_elem_of_cons; done).
        by rewrite filter_cons, decide_True.
Qed.

Lemma elem_of_first_per_address_keys k l :
  k ∈ normalized <$> first_per_address l ↔ k ∈ normalized <$> l.
Proof.
  induction l as [|a l IH]; csimpl; [done|].
  rewrite !elem_of_cons, <- IH, !list_elem_of_fmap.
  split.
  - intros [->|(u & -> & Hu)]; [by left|].
    apply list_elem_of_filter in Hu as [_ Hu]. right. by exists u.
  - intros [->|(u & -> & Hu)]; [by left|].
    destruct (decide (normalized u = normalized a)) as [Heq|Hne]; [by left|].
    right. exists u. split; [done|]. by apply list_elem_of_filter.
Qed.

Lemma NoDup_first_per_address l : NoDup (normalized <$> first_per_address l).
Proof.
  induction l as [|a l IH]; csimpl; [constructor|].
  apply NoDup_cons. split.
  - rewrite list_elem_of_fmap. intros (u & Heq & Hu).
    apply list_elem_of_filter in Hu as [Hne _]. congruence.
  - revert IH. generalize (first_per_address l). intros fl.
    induction fl as [|b fl IHfl]; csimpl; [done|].
    rewrite NoDup_cons. intros [Hb Hfl]. rewrite filter_cons.
    destruct (decide (normalized b ≠ normalized a)); [|by apply IHfl].
    csimpl. apply NoDup_cons. split; [|by apply IHfl].
    rewrite list_elem_of_fmap. intros (u & Heq & Hu).
    apply list_elem_of_filter in Hu as [_ Hu]. apply Hb.
    rewrite list_elem_of_fmap. by exists u.
Qed.

Lemma last_with_address_snoc k l t :
  last_with_address k (l ++ [t]) =
  if decide (normalized t = k) then Some t else last_with_address k l.
Proof.
  unfold last_with_address, with_address. rewrite filter_app, filter_cons.
  destruct (decide (normalized t = k)).
  - by rewrite filter_nil, last_snoc.
  - by rewrite filter_nil, app_nil_r.
Qed.

Lemma dex_loop P :
  foldl (λ m t, JsMap.set (normalized t) t m) JsMap.empty P = dex_entries P.
Proof.
  induction P as [|t P IH] using rev_ind; [done|].
  rewrite foldl_snoc, IH. unfold dex_entries.
  rewrite JsMap_set_fmap by apply NoDup_first_per_address.
  rewrite first_per_address_snoc.
  destruct (decide (normalized t ∈ normalized <$> first_per_address P))
    as [Hin|Hnotin].
  - rewrite decide_True by (by apply elem_of_first_per_address_keys).
    rewrite app_nil_r. apply list_fmap_ext. intros i u _. f_equal.
    rewrite last_with_address_snoc.
    destruct (decide (normalized u = normalized t)) as [Heq|Hne].
    + by rewrite decide_True.
    + by rewrite decide_False.
  - rewrite decide_False
      by (by rewrite <- elem_of_first_per_address_keys).
    rewrite fmap_app. f_equal.
    + apply list_fmap_ext. intros i u Hu. f_equal.
      rewrite last_with_address_snoc, decide_False; [done|].
      intros Heq. apply Hnotin. rewrite Heq.
      apply list_elem_of_fmap. exists u. split; [done|].
      by eapply list_elem_of_lookup_2.
    + csimpl. by rewrite last_with_address_snoc, decide_True.
Qed.

Lemma jup_loop (m0 : JsMap.t TokenData) S :
  foldl (λ m t, if JsMap.has (normalized t) m then m
                else JsMap.set (normalized t) t m) m0 S =
  m0 ++ ((λ s, (normalized s, s)) <$>
         first_per_address (filter (λ s, normalized s ∉ JsMap.keys m0) S)).
Proof.
  induction S as [|s S IH] using rev_ind; [by rewrite app_nil_r|].
  rewrite foldl_snoc, IH, filter_app, filter_cons, filter_nil.
  set (F := filter (λ s, normalized s ∉ JsMap.keys m0) S).
  assert (Hkeys : ∀ k, k ∈ JsMap.keys
            (m0 ++ ((λ s, (normalized s, s)) <$> first_per_address F)) ↔
            k ∈ JsMap.keys m0 ∨ k ∈ normalized <$> F).
  { intros k. unfold JsMap.keys. rewrite fmap_app, elem_of_app.
    rewrite <- list_fmap_compose.
    by rewrite <- (elem_of_first_per_address_keys k F). }
  destruct (decide (normalized s ∉ JsMap.keys m0)) as [Hnew|Hold].
  - rewrite first_per_address_snoc.
    destruct (decide (normalized s ∈ normalized <$> F)) as [Hin|Hnotin].
    + rewrite app_nil_r.
      by rewrite (proj2 (JsMap_has_spec _ _)) by (apply Hkeys; by right).
    + destruct (JsMap.has _ _) eqn:Hhas.
      * apply JsMap_has_spec, Hkeys in Hhas. by destruct Hhas.
      * rewrite JsMap_set_new.
        -- by rewrite fmap_app, app_assoc.
        -- rewrite Hkeys. by intros [?|?].
  - rewrite app_nil_r. apply dec_stable in Hold.
    by rewrite (proj2 (JsMap_has_spec _ _)) by (apply Hkeys; by left).
Qed.

(** The merged sequence is the primary contribution followed by the
    secondary-only records. *)
Lemma mergeTokenData_structure dexData jupData :
  mergeTokenData dexData jupData =
  primary_contribution dexData ++ secondary_only dexData jupData.
Proof.
  unfold mergeTokenData.
  rewrite foldl_addJupToken, foldl_addDexToken, dex_loop, jup_loop.
  unfold JsMap.values. rewrite fmap_app. f_equal.
  - unfold dex_entries, primary_contribution.
    by rewrite <- list_fmap_compose.
  - rewrite <- list_fmap_compose.
    change (snd ∘ _) with (@id TokenData). rewrite list_fmap_id.
    unfold secondary_only. f_equal. apply list_filter_iff. intros s.
    unfold JsMap.keys, dex_entries. rewrite <- list_fmap_compose.
    change (fst ∘ _) with normalized.
    by rewrite elem_of_first_per_address_keys.
Qed.

(** ** Looking a normalized address up in the pieces of the merge *)

Lemma last_with_address_Some k l r :
  last_with_address k l = Some r → normalized r = k ∧ r ∈ l.
Proof.
  unfold last_with_address, with_address. intros Hlast.
  apply last_Some_elem_of in Hlast.
  by apply list_elem_of_filter in Hlast.
Qed.

Lemma first_with_address_Some k l r :
  first_with_address k l = Some r → normalized r = k ∧ r ∈ l.
Proof.
  unfold first_with_address, with_address. intros Hhead.
  apply head_Some_elem_of in Hhead.
  by apply list_elem_of_filter in Hhead.
Qed.

Lemma with_address_app k l1 l2 :
  with_address k (l1 ++ l2) = with_address k l1 ++ with_address k l2.
Proof. apply filter_app. Qed.

Lemma with_address_nonempty k l :
  k ∈ normalized <$> l → with_address k l ≠ [].
Proof.
  rewrite list_elem_of_fmap. intros (u & -> & Hu) Hnil.
  assert (Hin : u ∈ with_address (normalized u) l)
    by (by apply list_elem_of_filter).
  rewrite Hnil in Hin. by apply elem_of_nil in Hin.
Qed.

Lemma with_address_absent k l :
  k ∉ normalized <$> l → with_address k l = [].
Proof.
  intros Hnotin. destruct (with_address k l) as [|u l'] eqn:Hl; [done|].
  assert (Hin : u ∈ with_address k l) by (rewrite Hl; left).
  apply list_elem_of_filter in Hin as [<- Hu]. destruct Hnotin.
  apply list_elem_of_fmap. by exists u.
Qed.

Lemma with_address_first_per_address k l :
  with_address k (first_per_address l) =
  option_list (first_with_address k l).
Proof.
  unfold first_with_address, with_address.
  induction l as [|a l IH]; csimpl; [done|].
  rewrite !filter_cons. destruct (decide (normalized a = k)) as [Ha|Ha].
  - csimpl. f_equal. subst k.
    apply with_address_absent. rewrite list_elem_of_fmap.
    intros (u & Heq & Hu). apply list_elem_of_filter in Hu as [Hne _].
    congruence.
  - rewrite <- IH. rewrite list_filter_filter. apply list_filter_iff.
    intros u. split; [by intros [? _]|]. intros Hu. split; congruence.
Qed.

Lemma with_address_fmap k (g : TokenData → TokenData) l :
  (∀ u, u ∈ l → normalized (g u) = normalized u) →
  with_address k (g <$> l) = g <$> with_address k l.
Proof.
  unfold with_address. induction l as [|a l IH]; intros Hg; csimpl; [done|].
  rewrite !filter_cons, Hg by left.
  rewrite IH by (intros u Hu; apply Hg; by right).
  by destruct (decide (normalized a = k)).
Qed.

Lemma primary_contribution_normalized u P :
  u ∈ P →
  normalized (default u (last_with_address (normalized u) P)) = normalized u.
Proof.
  intros Hu. destruct (last_with_address (normalized u) P) as [r|] eqn:Hr.
  - by apply last_with_address_Some in Hr as [Hr _].
  - done.
Qed.

Lemma elem_of_first_per_address u l : u ∈ first_per_address l → u ∈ l.
Proof.
  induction l as [|a l IH]; csimpl; [done|].
  rewrite !elem_of_cons, list_elem_of_filter.
  intros [->|[_ Hu]]; [by left|right; by apply IH].
Qed.

Lemma primary_contribution_keys primary :
  normalized <$> primary_contribution primary =
  normalized <$> first_per_address (identified primary).
Proof.
  unfold primary_contribution. rewrite <- list_fmap_compose.
  apply list_fmap_ext. intros i u Hu. simpl.
  apply primary_contribution_normalized, elem_of_first_per_address.
  by eapply list_elem_of_lookup_2.
Qed.

(** The slot of a primary address holds the last primary record of it. *)
Lemma with_address_primary_contribution k primary r :
  last_with_address k (identified primary) = Some r →
  with_address k (primary_contribution primary) = [r].
Proof.
  intros Hr. unfold primary_contribution.
  rewrite with_address_fmap
    by (intros u Hu; by apply primary_contribution_normalized,
                              elem_of_first_per_address).
  rewrite with_address_first_per_address.
  destruct (first_with_address k (identified primary)) as [u|] eqn:Hu.
  - apply first_with_address_Some in Hu as [<- _]. csimpl. by rewrite Hr.
  - unfold first_with_address, last_with_address in *.
    destruct (with_address k (identified primary)); [done|discriminate].
Qed.

Lemma with_address_secondary_only_primary k primary secondary :
  k ∈ normalized <$> identified primary →
  with_address k (secondary_only primary secondary) = [].
Proof.
  intros Hk. apply with_address_absent. unfold secondary_only.
  rewrite elem_of_first_per_address_keys, list_elem_of_fmap.
  intros (s & -> & Hs). by apply list_elem_of_filter in Hs as [Hs _].
Qed.

Lemma with_address_secondary_only k primary secondary :
  k ∉ normalized <$> identified primary →
  with_address k (secondary_only primary secondary) =
  option_list (first_with_address k (identified secondary)).
Proof.
  intros Hk. unfold secondary_only.
  rewrite with_address_first_per_address. f_equal.
  unfold first_with_address, with_address. f_equal.
  rewrite list_filter_filter. apply list_filter_iff.
  intros s. split; [by intros [? _]|]. intros <-. done.
Qed.

Lemma length_first_per_address l :
  length (first_per_address l) =
  size (list_to_set (normalized <$> l) : gset string).
Proof.
  rewrite <- (length_fmap normalized).
  rewrite <- (size_list_to_set (C := gset string))
    by apply NoDup_first_per_address.
  f_equal. apply set_eq. intros k.
  by rewrite !elem_of_list_to_set, elem_of_first_per_address_keys.
Qed.

Lemma dex_loop_distinct (m : JsMap.t TokenData) l :
  NoDup (JsMap.keys m ++ (normalized <$> l)) →
  foldl (λ m t, JsMap.set (normalized t) t m) m l =
  m ++ ((λ t, (normalized t, t)) <$> l).
Proof.
  revert m. induction l as [|a l IH]; intros m Hnodup; csimpl.
  - by rewrite app_nil_r.
  - assert (Ha : normalized a ∉ JsMap.keys m).
    { apply NoDup_app in Hnodup as (_ & Hdisj & _).
      intros Hin. apply (Hdisj _ Hin). left. }
    rewrite JsMap_set_new by done. rewrite IH.
    + by rewrite <- app_assoc.
    + unfold JsMap.keys in *. rewrite fmap_app. csimpl.
      by rewrite <- app_assoc.
Qed.

(** ** The merge: the specified properties *)

(** C1 (primary precedence).  When an address occurs, after lowercasing, in
    a record [p] of the primary sequence and a record [s] of the secondary
    sequence, the merged output holds exactly one record of that address, and
    it is the last primary record of that address, with all its fields.  The
    secondary record is in the output only if it is that very record. *)
Theorem primary_precedence dexData jupData p s :
  p ∈ dexData → s ∈ jupData →
  token_address p ≠ "" → normalized s = normalized p →
  ∃ r, last_with_address (normalized p) (identified dexData) = Some r
       ∧ r ∈ dexData
       ∧ with_address (normalized p) (mergeTokenData dexData jupData) = [r]
       ∧ (s ∈ mergeTokenData dexData jupData → s = r).
Proof.
  intros Hp _ Haddr Hs.
  assert (Hin : normalized p ∈ normalized <$> identified dexData).
  { apply list_elem_of_fmap. exists p. split; [done|].
    by apply list_elem_of_filter. }
  destruct (last_with_address (normalized p) (identified dexData))
    as [r|] eqn:Hr.
  - assert (Hslot : with_address (normalized p)
                      (mergeTokenData dexData jupData) = [r]).
    { rewrite mergeTokenData_structure, with_address_app.
      rewrite (with_address_primary_contribution _ _ r) by done.
      by rewrite with_address_secondary_only_primary. }
    exists r. split; [done|]. split; [|split; [done|]].
    + apply last_with_address_Some in Hr as [_ Hr].
      by apply list_elem_of_filter in Hr as [_ Hr].
    + intros Hout.
      assert (Hs' : s ∈ with_address (normalized p)
                          (mergeTokenData dexData jupData))
        by (by apply list_elem_of_filter).
      rewrite Hslot in Hs'. by apply list_elem_of_singleton in Hs'.
  - apply with_address_nonempty in Hin. unfold last_with_address in Hr.
    apply last_None in Hr. done.
Qed.

(** C2 (dedup invariant).  The merged output never holds two records with
    the same normalized address. *)
Theorem merge_dedup dexData jupData :
  NoDup (normalized <$> mergeTokenData dexData jupData).
Proof.
  rewrite mergeTokenData_structure, fmap_app. apply NoDup_app.
  split; [|split].
  - rewrite primary_contribution_keys. apply NoDup_first_per_address.
  - intros k. rewrite primary_contribution_keys.
    rewrite elem_of_first_per_address_keys. intros Hk. unfold secondary_only.
    rewrite elem_of_first_per_address_keys, list_elem_of_fmap.
    intros (u & -> & Hu). by apply list_elem_of_filter in Hu as [Hu _].
  - apply NoDup_first_per_address.
Qed.

(** C3 (completeness).  The merged output has as many records as the primary
    sequence has distinct normalized addresses plus the secondary sequence
    has distinct normalized addresses that the primary one lacks; records
    with an empty address count on neither side. *)
Theorem merge_completeness dexData jupData :
  length (mergeTokenData dexData jupData) =
  (size (addresses dexData) + size (addresses jupData ∖ addresses dexData))%nat.
Proof.
  rewrite mergeTokenData_structure, length_app. f_equal.
  - unfold primary_contribution. by rewrite length_fmap, length_first_per_address.
  - unfold secondary_only. rewrite length_first_per_address. f_equal.
    apply set_eq. intros k. unfold addresses.
    rewrite elem_of_difference, !elem_of_list_to_set, !list_elem_of_fmap.
    split.
    + intros (u & -> & Hu). apply list_elem_of_filter in Hu as [Hnew Hu].
      split; [by exists u|]. by rewrite <- list_elem_of_fmap.
    + intros [(u & -> & Hu) Hnew]. exists u. split; [done|].
      apply list_elem_of_filter. split; [|done].
      by rewrite list_elem_of_fmap.
Qed.

(** C7 (insertion order).  The merged output is the primary contribution,
    in the order in which the primary addresses first occur, followed by the
    secondary-only records in the order of the secondary sequence: records of
    the two groups are never interleaved. *)
Theorem merge_insertion_order dexData jupData :
  mergeTokenData dexData jupData =
    primary_contribution dexData ++ secondary_only dexData jupData
  ∧ normalized <$> primary_contribution dexData =
      normalized <$> first_per_address (identified dexData)
  ∧ Forall (λ t, t ∈ dexData) (primary_contribution dexData)
  ∧ Forall (λ t, t ∈ jupData ∧
                 normalized t ∉ normalized <$> identified dexData)
           (secondary_only dexData jupData).
Proof.
  split; [apply mergeTokenData_structure|].
  split; [apply primary_contribution_keys|]. split.
  - apply Forall_forall. intros t. unfold primary_contribution.
    rewrite list_elem_of_fmap. intros (u & -> & Hu).
    apply elem_of_first_per_address in Hu.
    destruct (last_with_address _ _) as [r|] eqn:Hr; simpl.
    + apply last_with_address_Some in Hr as [_ Hr].
      by apply list_elem_of_filter in Hr as [_ Hr].
    + by apply list_elem_of_filter in Hu as [_ Hu].
  - apply Forall_forall. intros t Ht. unfold secondary_only in Ht.
    apply elem_of_first_per_address in Ht.
    apply list_elem_of_filter in Ht as [Hnew Ht].
    by apply list_elem_of_filter in Ht as [_ Ht].
Qed.

(** C10 (right identity).  A primary sequence whose records all have an
    address, no two of them the same after lowercasing, merged with the empty
    secondary sequence, comes back unchanged. *)
Theorem merge_right_identity dexData :
  Forall (λ t, token_address t ≠ "") dexData →
  NoDup (normalized <$> dexData) →
  mergeTokenData dexData [] = dexData.
Proof.
  intros Haddr Hnodup. unfold mergeTokenData. simpl.
  rewrite foldl_addDexToken.
  replace (identified dexData) with dexData.
  - rewrite dex_loop_distinct by done. unfold JsMap.values. simpl.
    rewrite <- list_fmap_compose. apply list_fmap_id.
  - unfold identified. induction Haddr as [|t l Ht Hl IH]; [done|].
    rewrite filter_cons, decide_True by done. f_equal. apply IH.
    by apply NoDup_cons in Hnodup as [_ ?].
Qed.

(** C4, as the code has it.  Among the secondary records of an address that
    the primary sequence lacks, the first one in iteration order is the one
    in the merged output; the later ones are discarded. *)
Theorem secondary_duplicates_first_wins dexData jupData s :
  s ∈ jupData → token_address s ≠ "" →
  normalized s ∉ normalized <$> identified dexData →
  ∃ r, first_with_address (normalized s) (identified jupData) = Some r
       ∧ with_address (normalized s) (mergeTokenData dexData jupData) = [r].
Proof.
  intros Hs Haddr Hnew.
  assert (Hin : normalized s ∈ normalized <$> identified jupData).
  { apply list_elem_of_fmap. exists s. split; [done|].
    by apply list_elem_of_filter. }
  destruct (first_with_address (normalized s) (identified jupData))
    as [r|] eqn:Hr.
  - exists r. split; [done|].
    rewrite mergeTokenData_structure, with_address_app.
    rewrite with_address_secondary_only, Hr by done.
    rewrite with_address_absent; [done|].
    by rewrite primary_contribution_keys, elem_of_first_per_address_keys.
  - apply with_address_nonempty in Hin. unfold first_with_address in Hr.
    apply head_None in Hr. done.
Qed.

(** ** The example codec meets the laws of [JSON] *)

Lemma pos_of_string_of_pos p : pos_of_string (string_of_pos p) = Some p.
Proof.
  induction p as [p IH|p IH|]; [| |done].
  - change (string_of_pos p~1) with (String "i" (string_of_pos p)).
    simpl pos_of_string. rewrite IH. by destruct (string_of_pos p).
  - change (string_of_pos p~0) with (String "o" (string_of_pos p)).
    simpl pos_of_string. rewrite IH. by destruct (string_of_pos p).
Qed.

Lemma example_parse_stringify l :
  example_parse (example_stringify l) = Ok (toJSON (tokens_value l)).
Proof.
  unfold example_parse, example_stringify.
  by rewrite pos_of_string_of_pos, decode_encode.
Qed.

Lemma example_stringify_truthy l : string_truthy (example_stringify l) = true.
Proof. unfold example_stringify. by destruct (encode l). Qed.

#[local] Instance example_JSON : JSON := {|
  JSON_stringify := example_stringify;
  JSON_parse := example_parse;
  JSON_parse_stringify := example_parse_stringify;
  JSON_stringify_truthy := example_stringify_truthy;
|}.

(** ** The cache and the orchestrator *)

Lemma number_toJSON_exact n :
  number_toJSON n = Number n ↔ number_json_exact n.
Proof. destruct n as [[]| | |]; simpl; split; (done || congruence). Qed.

Lemma toJSON_TokenData_exact t :
  toJSON (TokenData_value t) = TokenData_value t ↔ TokenData_json_exact t.
Proof.
  unfold TokenData_json_exact. rewrite <- !number_toJSON_exact.
  destruct t; unfold TokenData_value; simpl. split.
  - by intros [= ? ? ? ? ? ?].
  - intros (-> & -> & -> & -> & -> & ->). done.
Qed.

Lemma toJSON_tokens_exact l :
  toJSON (tokens_value l) = tokens_value l ↔ Forall TokenData_json_exact l.
Proof.
  unfold tokens_value. simpl. rewrite <- list_fmap_compose. split.
  - intros Heq.
    assert (Hl : toJSON ∘ TokenData_value <$> l = TokenData_value <$> l)
      by congruence.
    clear Heq.
    induction l as [|t l IH]; [constructor|].
    rewrite !fmap_cons in Hl. apply (inj2 cons) in Hl as [Ht Hl].
    constructor; [|by apply IH]. by apply toJSON_TokenData_exact.
  - intros Hl. f_equal. induction Hl as [|t l Ht Hl IH]; [done|]. csimpl.
    f_equal; [|done]. by apply toJSON_TokenData_exact.
Qed.

Lemma client_get_set db t t' key v EX :
  CacheService.client_get (CacheService.client_set db t key v EX) t' key =
  if decide (t' < t + EX) then Some v else None.
Proof.
  unfold CacheService.client_get, CacheService.client_set.
  by rewrite lookup_insert_eq.
Qed.

Section orchestrator.
Context `{JSON}.

Lemma getAggregatedData_unreachable query w :
  redis w = Unreachable →
  getAggregatedData query w = (Err ClientClosedError, w).
Proof.
  intros Hredis. unfold getAggregatedData, mbind, M_bind, CacheService.get.
  by rewrite Hredis.
Qed.

Lemma fetchFresh_ready query w db :
  redis w = Ready db →
  fetchFresh query w =
    (Ok (tokens_value (fresh_tokens query w)), after_miss query w db).
Proof.
  intros Hredis.
  unfold fetchFresh, mbind, M_bind, fetcherService, CacheService.set.
  simpl. by rewrite Hredis.
Qed.

Lemma getAggregatedData_hit query w db blob :
  redis w = Ready db →
  CacheService.client_get db (now w) (cacheKey query) = Some blob →
  string_truthy blob = true →
  getAggregatedData query w = (JSON_parse blob, w).
Proof.
  intros Hredis Hget Hblob.
  unfold getAggregatedData, mbind, M_bind, CacheService.get.
  by rewrite Hredis, Hget, Hblob.
Qed.

Lemma getAggregatedData_miss query w db :
  redis w = Ready db →
  (∀ blob, CacheService.client_get db (now w) (cacheKey query) = Some blob →
           string_truthy blob = false) →
  getAggregatedData query w =
    (Ok (tokens_value (fresh_tokens query w)), after_miss query w db).
Proof.
  intros Hredis Hget.
  unfold getAggregatedData, mbind, M_bind, CacheService.get.
  rewrite Hredis.
  destruct (CacheService.client_get _ _ _) as [blob|].
  - rewrite (Hget blob) by done. by apply fetchFresh_ready.
  - by apply fetchFresh_ready.
Qed.

(** A successful call either served the cache and left the world as it
    was, or fetched, merged and wrote the cache. *)
Lemma getAggregatedData_Ok query w r w1 :
  getAggregatedData query w = (Ok r, w1) →
  (w1 = w ∧ ∃ db blob, redis w = Ready db ∧
     CacheService.client_get db (now w) (cacheKey query) = Some blob ∧
     string_truthy blob = true ∧ JSON_parse blob = Ok r)
  ∨ (∃ db, redis w = Ready db ∧ w1 = after_miss query w db ∧
       r = tokens_value (fresh_tokens query w)).
Proof.
  destruct (redis w) as [db|] eqn:Hredis.
  - destruct (CacheService.client_get db (now w) (cacheKey query))
      as [blob|] eqn:Hget.
    + destruct (string_truthy blob) eqn:Hblob.
      * rewrite (getAggregatedData_hit _ _ db blob) by done.
        intros [= Hr <-]. left. split; [done|]. by exists db, blob.
      * rewrite (getAggregatedData_miss _ _ db);
          [|done|intros b Hb; congruence].
        intros [= <- <-]. right. by exists db.
    + rewrite (getAggregatedData_miss _ _ db);
        [|done|intros b Hb; congruence].
      intros [= <- <-]. right. by exists db.
  - rewrite getAggregatedData_unreachable by done. discriminate.
Qed.

(** Within the time to live, the entry a miss wrote is served. *)
Lemma getAggregatedData_after_miss query w db d :
  d < cacheTTL config →
  getAggregatedData query (elapse d (after_miss query w db)) =
    (Ok (toJSON (tokens_value (fresh_tokens query w))),
     elapse d (after_miss query w db)).
Proof.
  intros Hd.
  erewrite getAggregatedData_hit.
  - by rewrite JSON_parse_stringify.
  - done.
  - simpl in *. by rewrite client_get_set, decide_True by lia.
  - apply JSON_stringify_truthy.
Qed.

(** While the entry that served a call is unexpired, a later call is served
    the same. *)
Lemma getAggregatedData_hit_again query w db blob expires d :
  redis w = Ready db →
  db !! cacheKey query = Some (blob, expires) →
  now w < expires → now w + d < expires →
  string_truthy blob = true →
  getAggregatedData query w = (JSON_parse blob, w)
  ∧ getAggregatedData query (elapse d w) = (JSON_parse blob, elapse d w).
Proof.
  intros Hredis Hdb Hnow Hlater Hblob. split.
  - apply (getAggregatedData_hit _ _ db); [done| |done].
    unfold CacheService.client_get. by rewrite Hdb, decide_True.
  - apply (getAggregatedData_hit _ _ db); [done| |done].
    unfold CacheService.client_get. simpl. by rewrite Hdb, decide_True.
Qed.

(** Once the time to live has passed, the entry a miss wrote is gone and
    the adapters are called again. *)
Lemma getAggregatedData_expired query w db d :
  cacheTTL config ≤ d →
  calls (getAggregatedData query (elapse d (after_miss query w db))).2 =
    (Jupiter, query) :: (DexScreener, query)
      :: calls (after_miss query w db).
Proof.
  intros Hd. erewrite getAggregatedData_miss; [done|done|].
  intros blob. simpl in *.
  rewrite client_get_set, decide_False by lia. discriminate.
Qed.

End orchestrator.

(** C5, as the code has it.  Neither [CacheService.get] nor
    [getAggregatedData] catches anything: when the cache read fails,
    [getAggregatedData] rejects with that failure, no adapter is called and
    nothing is written; the route answers 500. *)
Theorem cache_read_failure_propagates `{JSON} query w :
  redis w = Unreachable →
  getAggregatedData query w = (Err ClientClosedError, w)
  ∧ api_tokens (Some query) w =
      ((500, Object [("error", Str "Internal Server Error")]), w)
  ∧ api_tokens None w =
      ((500, Object [("error", Str "Internal Server Error")]), w).
Proof.
  intros Hredis. unfold api_tokens.
  rewrite !getAggregatedData_unreachable by done. done.
Qed.

(** C6, as the code has it.  After a call that went to the adapters, a
    second call for the same query less than [cacheTTL] seconds later calls no
    adapter and leaves the world as it is; what it returns is the first
    result as [JSON.stringify] and [JSON.parse] carry it, which is the first
    result itself exactly when every number in it is finite and not negative
    zero. *)
Theorem cache_round_trip `{JSON} query w r1 w1 d :
  getAggregatedData query w = (Ok r1, w1) →
  calls w1 ≠ calls w →
  d < cacheTTL config →
  ∃ merged,
    r1 = tokens_value merged
    ∧ getAggregatedData query (elapse d w1) = (Ok (toJSON r1), elapse d w1)
    ∧ (toJSON r1 = r1 ↔ Forall TokenData_json_exact merged).
Proof.
  intros Hfirst Hcalls Hd.
  apply getAggregatedData_Ok in Hfirst
    as [[-> _]|(db & Hredis & -> & ->)]; [done|].
  exists (fresh_tokens query w). split; [done|]. split.
  - by apply getAggregatedData_after_miss.
  - apply toJSON_tokens_exact.
Qed.

(** C9, as the code has it.  The entry is read and written under the fixed
    prefix [tokens_v5], a colon and the query string as it was given: the
    query is not normalized, so two different queries never share an entry.
    A miss writes the entry with a time to live of 30 seconds: it is served
    until 30 seconds after the write and no longer. *)
Theorem cache_entry_key_and_ttl `{JSON} query w db :
  redis w = Ready db →
  cacheKey query = "tokens_v5:" +:+ query
  ∧ (∀ query', cacheKey query = cacheKey query' → query = query')
  ∧ (∀ blob,
       CacheService.client_get db (now w) ("tokens_v5:" +:+ query) = Some blob →
       string_truthy blob = true →
       getAggregatedData query w = (JSON_parse blob, w))
  ∧ (CacheService.client_get db (now w) ("tokens_v5:" +:+ query) = None →
     ∃ r blob w1,
       getAggregatedData query w = (Ok r, w1)
       ∧ redis w1 = Ready (<["tokens_v5:" +:+ query := (blob, now w + 30)]> db)
       ∧ ∀ d, CacheService.get (cacheKey query) (elapse d w1) =
               (Ok (if decide (d < 30) then Some blob else None), elapse d w1)).
Proof.
  intros Hredis. split; [done|]. split; [|split].
  - intros query'. unfold cacheKey. intros Heq. by simplify_eq/=.
  - intros blob Hget Hblob. by apply (getAggregatedData_hit _ _ db).
  - intros Hget.
    exists (tokens_value (fresh_tokens query w)),
           (JSON_stringify (fresh_tokens query w)), (after_miss query w db).
    split; [|split].
    + apply getAggregatedData_miss; [done|].
      intros blob. fold (cacheKey query) in Hget. congruence.
    + done.
    + intros d. unfold CacheService.get. simpl.
      rewrite client_get_set.
      destruct (decide (now w + d < now w + 30)), (decide (d < 30));
        (done || lia).
Qed.

(** ** The source adapters *)

Lemma Settled_bind_Ok {A B} (a : A) (k : A → Settled B) : Ok a ≫= k = k a.
Proof. done. Qed.

Lemma try_catch_empty {A} (body : Settled (list A)) :
  ∃ l, try_catch body (λ _, Ok []) = Ok l.
Proof. destruct body; simpl; eauto. Qed.

Lemma try_catch_Err {A} (body : Settled (list A)) e :
  body = Err e → try_catch body (λ _, Ok []) = Ok [].
Proof. by intros ->. Qed.

(** [map] stops at the first element on which the callback throws. *)
Lemma map_callback_Err {A B} (f : A → Settled B) (l : list A) a :
  a ∈ l → (∃ e, f a = Err e) → ∃ e, map_callback f l = Err e.
Proof.
  intros Ha Hfa. induction l as [|b l IH]; [by apply elem_of_nil in Ha|].
  simpl. destruct (f b) as [fb|e] eqn:Hfb; [|by exists e].
  apply elem_of_cons in Ha as [->|Ha].
  - destruct Hfa as [e He]. congruence.
  - destruct (IH Ha) as [e He]. exists e. simpl. by rewrite He.
Qed.

Section fetcher_properties.
Context `{Coercions}.

Lemma axios_get_NetworkError net url :
  net url = NetworkError → axios_get net url = Err AxiosError.
Proof. unfold axios_get. by intros ->. Qed.

Lemma axios_get_status net url st body :
  net url = HttpResponse st body → ¬ (200 ≤ st < 300) →
  axios_get net url = Err AxiosError.
Proof. unfold axios_get. intros -> Hst. by rewrite decide_False. Qed.

Lemma axios_get_success net url st body :
  net url = HttpResponse st body → 200 ≤ st < 300 →
  axios_get net url = Ok {| status := st; data := body |}.
Proof. unfold axios_get. intros -> Hst. by rewrite decide_True. Qed.

Lemma dexScreenerToken_Null : dexScreenerToken Null = Err TypeError.
Proof. done. Qed.

Lemma jupiterToken_Null : jupiterToken Null = Err TypeError.
Proof. done. Qed.

Lemma fetchDexScreenerData_not_array net query st body :
  net (dexScreenerUrl query) = HttpResponse st body →
  (∀ items, member (Some body) "pairs" ≠ Ok (Some (Array items))) →
  fetchDexScreenerData net query = Ok [].
Proof.
  intros Hnet Hpairs. unfold fetchDexScreenerData.
  destruct (decide (200 ≤ st < 300)) as [Hst|Hst].
  - unfold fetchDexScreenerData_try.
    rewrite (axios_get_success _ _ st body) by done.
    rewrite Settled_bind_Ok. cbn [data].
    destruct (truthy (Some body)); [|done].
    destruct (member (Some body) "pairs") as [pairs|e] eqn:Hmember;
      [|done]. rewrite Settled_bind_Ok.
    destruct (truthy pairs); [|done].
    destruct pairs as [[]|]; try done. by destruct (Hpairs items).
  - apply (try_catch_Err _ AxiosError). unfold fetchDexScreenerData_try.
    by rewrite (axios_get_status _ _ st body).
Qed.

Lemma fetchDexScreenerData_null_pair net query st body items :
  net (dexScreenerUrl query) = HttpResponse st body →
  member (Some body) "pairs" = Ok (Some (Array items)) →
  Null ∈ items →
  fetchDexScreenerData net query = Ok [].
Proof.
  intros Hnet Hpairs Hnull. unfold fetchDexScreenerData.
  destruct (decide (200 ≤ st < 300)) as [Hst|Hst].
  - unfold fetchDexScreenerData_try.
    rewrite (axios_get_success _ _ st body) by done.
    rewrite Settled_bind_Ok. cbn [data].
    destruct (truthy (Some body)); [|done].
    rewrite Hpairs, Settled_bind_Ok. cbn [truthy call_map].
    destruct (map_callback_Err dexScreenerToken items Null) as [e ->];
      [done|by exists TypeError|done].
  - apply (try_catch_Err _ AxiosError). unfold fetchDexScreenerData_try.
    by rewrite (axios_get_status _ _ st body).
Qed.

Lemma fetchJupiterData_not_array net query st body :
  net (jupiterUrl query) = HttpResponse st body →
  isArray body = false →
  fetchJupiterData net query = Ok [].
Proof.
  intros Hnet Hbody. unfold fetchJupiterData.
  destruct (decide (200 ≤ st < 300)) as [Hst|Hst].
  - unfold fetchJupiterData_try.
    rewrite (axios_get_success _ _ st body) by done.
    rewrite Settled_bind_Ok. cbn [data].
    by rewrite Hbody, andb_false_r.
  - apply (try_catch_Err _ AxiosError). unfold fetchJupiterData_try.
    by rewrite (axios_get_status _ _ st body).
Qed.

Lemma fetchJupiterData_null_token net query st items :
  net (jupiterUrl query) = HttpResponse st (Array items) →
  Null ∈ items →
  fetchJupiterData net query = Ok [].
Proof.
  intros Hnet Hnull. unfold fetchJupiterData.
  destruct (decide (200 ≤ st < 300)) as [Hst|Hst].
  - unfold fetchJupiterData_try.
    rewrite (axios_get_success _ _ st (Array items)) by done.
    rewrite Settled_bind_Ok. cbn [data truthy isArray andb call_map].
    destruct (map_callback_Err jupiterToken items Null) as [e ->];
      [done|by exists TypeError|done].
  - apply (try_catch_Err _ AxiosError). unfold fetchJupiterData_try.
    by rewrite (axios_get_status _ _ st (Array items)).
Qed.

End fetcher_properties.

(** C8 (adapters fail soft).  For every state of the network and every
    query, each adapter fulfils with a sequence and never rejects.  Whatever
    is thrown inside its [try] block gives the empty sequence: so does a
    transport error, a status outside 2xx, a DexScreener body whose [pairs] is
    not an array, a Jupiter body that is not an array, and an array with a
    [null] element. *)
Theorem adapters_never_raise `{Coercions} net query :
  (∃ tokens, fetchDexScreenerData net query = Ok tokens)
  ∧ (∃ tokens, fetchJupiterData net query = Ok tokens)
  ∧ (∀ e, fetchDexScreenerData_try net query = Err e →
          fetchDexScreenerData net query = Ok [])
  ∧ (∀ e, fetchJupiterData_try net query = Err e →
          fetchJupiterData net query = Ok [])
  ∧ (net (dexScreenerUrl query) = NetworkError →
     fetchDexScreenerData net query = Ok [])
  ∧ (net (jupiterUrl query) = NetworkError →
     fetchJupiterData net query = Ok [])
  ∧ (∀ st body, net (dexScreenerUrl query) = HttpResponse st body →
       ¬ (200 ≤ st < 300) → fetchDexScreenerData net query = Ok [])
  ∧ (∀ st body, net (jupiterUrl query) = HttpResponse st body →
       ¬ (200 ≤ st < 300) → fetchJupiterData net query = Ok [])
  ∧ (∀ st body, net (dexScreenerUrl query) = HttpResponse st body →
       (∀ items, member (Some body) "pairs" ≠ Ok (Some (Array items))) →
       fetchDexScreenerData net query = Ok [])
  ∧ (∀ st body items, net (dexScreenerUrl query) = HttpResponse st body →
       member (Some body) "pairs" = Ok (Some (Array items)) →
       Null ∈ items → fetchDexScreenerData net query = Ok [])
  ∧ (∀ st body, net (jupiterUrl query) = HttpResponse st body →
       isArray body = false → fetchJupiterData net query = Ok [])
  ∧ (∀ st items, net (jupiterUrl query) = HttpResponse st (Array items) →
       Null ∈ items → fetchJupiterData net query = Ok []).
Proof.
  repeat split.
  - apply try_catch_empty.
  - apply try_catch_empty.
  - intros e. apply try_catch_Err.
  - intros e. apply try_catch_Err.
  - intros Hnet. apply (try_catch_Err _ AxiosError).
    unfold fetchDexScreenerData_try. by rewrite axios_get_NetworkError.
  - intros Hnet. apply (try_catch_Err _ AxiosError).
    unfold fetchJupiterData_try. by rewrite axios_get_NetworkError.
  - intros st body Hnet Hst. apply (try_catch_Err _ AxiosError).
    unfold fetchDexScreenerData_try.
    by rewrite (axios_get_status _ _ st body).
  - intros st body Hnet Hst. apply (try_catch_Err _ AxiosError).
    unfold fetchJupiterData_try.
    by rewrite (axios_get_status _ _ st body).
  - apply fetchDexScreenerData_not_array.
  - apply fetchDexScreenerData_null_pair.
  - apply fetchJupiterData_not_array.
  - apply fetchJupiterData_null_token.
Qed.

(** * Examples *)

(** 'should merge and deduplicate tokens correctly' *)
Example merge_mock_data :
  mergeTokenData mockDexData mockJupData =
  mockDexData ++ [jupiterRecord "0x789" "Token C" "TKC"].
Proof. vm_compute. reflexivity. Qed.

Example merge_scenarioA :
  mergeTokenData scenarioA_primary scenarioA_secondary =
  scenarioA_primary ++ [jupiterRecord "0x789" "Token C" "TKC"].
Proof. vm_compute. reflexivity. Qed.

(** Records without an address are dropped on both sides. *)
Example merge_drops_unidentified :
  mergeTokenData [jupiterRecord "" "no" "address"; jupiterRecord "a" "A" "A"]
                 [jupiterRecord "" "none" "either"] =
  [jupiterRecord "a" "A" "A"].
Proof. vm_compute. reflexivity. Qed.

(** A repeated primary address keeps its first place and its last record. *)
Example merge_primary_last_wins :
  mergeTokenData [jupiterRecord "a" "first" "A"; jupiterRecord "b" "B" "B";
                  jupiterRecord "A" "last" "A"] [] =
  [jupiterRecord "A" "last" "A"; jupiterRecord "b" "B" "B"].
Proof. vm_compute. reflexivity. Qed.

Lemma primary_precedence_witness :
  ∃ r, last_with_address "0x123" (identified scenarioA_primary) = Some r
       ∧ r ∈ scenarioA_primary
       ∧ with_address "0x123"
           (mergeTokenData scenarioA_primary scenarioA_secondary) = [r]
       ∧ (jupiterRecord "0X123" "Token A" "TKA"
            ∈ mergeTokenData scenarioA_primary scenarioA_secondary →
          jupiterRecord "0X123" "Token A" "TKA" = r).
Proof.
  apply (primary_precedence scenarioA_primary scenarioA_secondary mockTokenA
           (jupiterRecord "0X123" "Token A" "TKA")).
  - by left.
  - by left.
  - done.
  - reflexivity.
Defined.

Lemma merge_right_identity_witness : mergeTokenData mockDexData [] = mockDexData.
Proof.
  apply (merge_right_identity mockDexData).
  - repeat constructor; done.
  - compute_done.
Defined.

Lemma secondary_duplicates_first_wins_witness :
  ∃ r, first_with_address (normalized later) (identified [earlier; later])
         = Some r
       ∧ with_address (normalized later) (mergeTokenData [] [earlier; later])
         = [r].
Proof.
  apply (secondary_duplicates_first_wins [] [earlier; later] later).
  - right. by left.
  - done.
  - apply not_elem_of_nil.
Defined.

(** C4, as the specification has it, fails: of two secondary records that
    share a normalized address absent from the primary sequence, the later one
    is not in the merged output. *)
Lemma secondary_last_wins_counterexample :
  normalized earlier = normalized later
  ∧ token_address later ≠ ""
  ∧ mergeTokenData [] [earlier; later] = [earlier]
  ∧ later ∉ mergeTokenData [] [earlier; later].
Proof.
  split; [reflexivity|]. split; [done|].
  assert (Hmerge : mergeTokenData [] [earlier; later] = [earlier])
    by (vm_compute; reflexivity).
  split; [done|]. rewrite Hmerge. by intros [=]%list_elem_of_singleton.
Qed.

(** ** The orchestrator on the fixtures *)

Lemma coldWorld_miss query blob :
  CacheService.client_get ∅ (now coldWorld) (cacheKey query) = Some blob →
  string_truthy blob = false.
Proof. unfold CacheService.client_get. by rewrite lookup_empty. Qed.

(** 'should fetch from APIs when cache misses' *)
Example getAggregatedData_cold :
  getAggregatedData "SOL" coldWorld =
    (Ok (tokens_value (mergeTokenData mockDexData mockJupData)),
     after_miss "SOL" coldWorld ∅)
  ∧ calls (after_miss "SOL" coldWorld ∅) =
      [(Jupiter, "SOL"); (DexScreener, "SOL")].
Proof.
  split; [|done]. apply getAggregatedData_miss; [done|].
  apply coldWorld_miss.
Qed.

(** 'should return cached data if available' *)
Example getAggregatedData_cached :
  let w := {| redis := Ready {[ "tokens_v5:SOL" :=
                                  (JSON_stringify mockDexData, 30) ]};
              now := 0; upstream := mockUpstream; calls := [] |} in
  getAggregatedData "SOL" w = (Ok (tokens_value mockDexData), w).
Proof.
  intros w.
  erewrite (getAggregatedData_hit "SOL" w).
  - rewrite JSON_parse_stringify. f_equal. f_equal.
    apply toJSON_tokens_exact. by repeat constructor.
  - done.
  - unfold CacheService.client_get.
    by rewrite (lookup_singleton_eq (M := gmap string)).
  - apply JSON_stringify_truthy.
Qed.

(** 'should handle empty API responses'; the empty result is cached too. *)
Example getAggregatedData_empty :
  let w := {| redis := Ready ∅; now := 0; upstream := λ _ _, [];
              calls := [] |} in
  (getAggregatedData "SOL" w).1 = Ok (Array [])
  ∧ redis (getAggregatedData "SOL" w).2 =
      Ready {[ "tokens_v5:SOL" := (JSON_stringify [], 30) ]}.
Proof.
  intros w. rewrite (getAggregatedData_miss "SOL" w ∅); [|done|].
  - split; [done|]. simpl. unfold CacheService.client_set.
    by rewrite insert_empty.
  - intros blob. unfold CacheService.client_get. by rewrite lookup_empty.
Qed.

Lemma cache_round_trip_witness :
  ∃ merged,
    tokens_value (fresh_tokens "SOL" coldWorld) = tokens_value merged
    ∧ getAggregatedData "SOL" (elapse 29 (after_miss "SOL" coldWorld ∅)) =
        (Ok (toJSON (tokens_value (fresh_tokens "SOL" coldWorld))),
         elapse 29 (after_miss "SOL" coldWorld ∅))
    ∧ (toJSON (tokens_value (fresh_tokens "SOL" coldWorld)) =
         tokens_value (fresh_tokens "SOL" coldWorld)
       ↔ Forall TokenData_json_exact merged).
Proof.
  apply (cache_round_trip "SOL" coldWorld).
  - apply getAggregatedData_miss; [done|]. apply coldWorld_miss.
  - discriminate.
  - reflexivity.
Defined.

(** C6, as the specification has it, fails: the first call returns a record
    whose price is [NaN], the second call, one second later and served from
    the cache, returns it with the price [null]. *)
Lemma cache_round_trip_counterexample :
  let first := getAggregatedData "SOL" nanWorld in
  let second := getAggregatedData "SOL" (elapse 1 first.2) in
  first.1 = Ok (tokens_value [nanToken])
  ∧ calls first.2 = [(Jupiter, "SOL"); (DexScreener, "SOL")]
  ∧ calls second.2 = calls first.2
  ∧ (∃ r2, second.1 = Ok r2 ∧
           own_property "price_sol"
             match r2 with
             | Array [Object fields] => fields
             | _ => []
             end = Some Null)
  ∧ second.1 ≠ first.1.
Proof.
  assert (Hfirst : getAggregatedData "SOL" nanWorld =
                   (Ok (tokens_value [nanToken]), after_miss "SOL" nanWorld ∅)).
  { apply getAggregatedData_miss; [done|]. intros blob.
    unfold CacheService.client_get. by rewrite lookup_empty. }
  cbv zeta. rewrite Hfirst. cbn [fst snd].
  rewrite getAggregatedData_after_miss by reflexivity. cbn [fst snd].
  split; [done|]. split; [done|]. split; [done|]. split.
  - eexists. split; [reflexivity|]. reflexivity.
  - discriminate.
Qed.

Lemma cache_read_failure_propagates_witness :
  getAggregatedData "SOL" downWorld = (Err ClientClosedError, downWorld)
  ∧ api_tokens (Some "SOL") downWorld =
      ((500, Object [("error", Str "Internal Server Error")]), downWorld)
  ∧ api_tokens None downWorld =
      ((500, Object [("error", Str "Internal Server Error")]), downWorld).
Proof. apply (cache_read_failure_propagates "SOL" downWorld). reflexivity. Defined.

(** C5, as the specification has it, fails: with the cache unreachable the
    call rejects; it returns no sequence and calls no adapter. *)
Lemma cache_read_failure_counterexample :
  getAggregatedData "SOL" downWorld = (Err ClientClosedError, downWorld)
  ∧ calls (getAggregatedData "SOL" downWorld).2 = []
  ∧ ¬ ∃ v w, getAggregatedData "SOL" downWorld = (Ok v, w).
Proof.
  assert (Hcall : getAggregatedData "SOL" downWorld =
                  (Err ClientClosedError, downWorld)) by reflexivity.
  rewrite Hcall. split; [done|]. split; [done|].
  intros (v & w & [=]).
Qed.

Lemma cache_entry_key_and_ttl_witness :
  ∃ r blob w1,
    getAggregatedData "SOL" coldWorld = (Ok r, w1)
    ∧ redis w1 = Ready (<["tokens_v5:SOL" := (blob, 30)]> ∅)
    ∧ ∀ d, CacheService.get "tokens_v5:SOL" (elapse d w1) =
            (Ok (if decide (d < 30) then Some blob else None), elapse d w1).
Proof.
  destruct (cache_entry_key_and_ttl "SOL" coldWorld ∅ eq_refl)
    as (_ & _ & _ & Hmiss).
  apply Hmiss. unfold CacheService.client_get. by rewrite lookup_empty.
Defined.

(** C9, as the specification has it, fails: the key holds the query as it
    was given, not a normalized form of it; queries that differ only in case
    have different entries. *)
Lemma cache_key_counterexample :
  cacheKey "SOL" = "tokens_v5:SOL"
  ∧ cacheKey "SOL" ≠ "tokens_v5:" +:+ toLowerCase "SOL"
  ∧ cacheKey "SOL" ≠ cacheKey "sol".
Proof. repeat split; discriminate. Qed.

(** ** The adapters on example responses *)

(** Missing fields take their defaults; a price that is not a number is
    [NaN]. *)
Example fetchDexScreenerData_example :
  fetchDexScreenerData (λ _, HttpResponse 200 exampleDexScreenerBody) "SOL" =
  Ok [ Object
         [ ("token_address", Str "0x123"); ("token_name", Str "Token A");
           ("token_ticker", Str "TKA");
           ("price_sol", Number (double false 8444249301319680 (-49)));
           ("market_cap_sol", Number (double false 8589934592000000 (-33)));
           ("volume_sol", Number num_zero);
           ("liquidity_sol", Number num_zero);
           ("transaction_count",
            Number (double false 7036874417766400 (-45)));
           ("price_1hr_change", Number num_zero);
           ("protocol", Str "dex1") ];
       Object
         [ ("token_address", Str ""); ("token_name", Str "");
           ("token_ticker", Str ""); ("price_sol", Number num_nan);
           ("market_cap_sol", Number num_zero);
           ("volume_sol", Number num_zero);
           ("liquidity_sol", Number num_zero);
           ("transaction_count", Number num_zero);
           ("price_1hr_change", Number num_zero);
           ("protocol", Str "") ] ].
Proof. vm_compute. reflexivity. Qed.

Example fetchJupiterData_example :
  fetchJupiterData
    (λ _, HttpResponse 200
            (Array [Object [("address", Str "0x789"); ("name", Str "Token C");
                            ("symbol", Str "TKC")]])) "SOL" =
  Ok [TokenData_value (jupiterRecord "0x789" "Token C" "TKC")].
Proof. vm_compute. reflexivity. Qed.

(** A body that is not JSON reaches the adapter as a string. *)
Example fetchDexScreenerData_html :
  fetchDexScreenerData (λ _, HttpResponse 200 (Str "<html>")) "SOL" = Ok [].
Proof. vm_compute. reflexivity. Qed.

Lemma adapters_never_raise_witness :
  fetchDexScreenerData deadNetwork "SOL" = Ok []
  ∧ fetchJupiterData deadNetwork "SOL" = Ok []
  ∧ fetchDexScreenerData blockedNetwork "SOL" = Ok []
  ∧ fetchJupiterData blockedNetwork "SOL" = Ok []
  ∧ fetchDexScreenerData oddNetwork "SOL" = Ok []
  ∧ fetchJupiterData oddNetwork "SOL" = Ok [].
Proof.
  destruct (adapters_never_raise deadNetwork "SOL")
    as (_ & _ & _ & _ & Hdex & Hjup & _).
  destruct (adapters_never_raise blockedNetwork "SOL")
    as (_ & _ & _ & _ & _ & _ & Hdex403 & Hjup403 & _).
  destruct (adapters_never_raise oddNetwork "SOL")
    as (_ & _ & _ & _ & _ & _ & _ & _ & Hpairs & _ & _ & Hnull).
  split; [by apply Hdex|]. split; [by apply Hjup|].
  split; [apply (Hdex403 403 (Str "Forbidden")); [done|lia]|].
  split; [apply (Hjup403 403 (Str "Forbidden")); [done|lia]|].
  split.
  - apply (Hpairs 200 (Object [("pairs", Str "none")])); [done|].
    intros items. discriminate.
  - apply (Hnull 200 [Null]); [done|by left].
Defined.

(** * Further properties *)

(** ** The merge *)

Lemma filter_all {A} (P : A → Prop) `{∀ x, Decision (P x)} (l : list A) :
  Forall P l → filter P l = l.
Proof.
  induction 1 as [|a l Ha Hl IH]; [done|].
  by rewrite filter_cons, decide_True, IH.
Qed.

Lemma filter_none {A} (P : A → Prop) `{∀ x, Decision (P x)} (l : list A) :
  Forall (λ a, ¬ P a) l → filter P l = [].
Proof.
  induction 1 as [|a l Ha Hl IH]; [done|].
  by rewrite filter_cons, decide_False.
Qed.

Lemma identified_clean l :
  Forall (λ t, token_address t ≠ "") l → identified l = l.
Proof. apply filter_all. Qed.

Lemma first_per_address_distinct l :
  NoDup (normalized <$> l) → first_per_address l = l.
Proof.
  induction l as [|a l IH]; csimpl; [done|].
  rewrite NoDup_cons. intros [Ha Hl]. rewrite IH by done. f_equal.
  apply filter_all, Forall_forall. intros u Hu Heq. apply Ha.
  rewrite <- Heq. apply list_elem_of_fmap. by exists u.
Qed.

Lemma length_first_per_address_le l :
  (length (first_per_address l) ≤ length l)%nat.
Proof.
  induction l as [|a l IH]; csimpl; [done|].
  pose proof (length_filter (λ u, normalized u ≠ normalized a)
                (first_per_address l)). lia.
Qed.

Lemma elem_of_primary_contribution t primary :
  t ∈ primary_contribution primary → t ∈ identified primary.
Proof.
  unfold primary_contribution. rewrite list_elem_of_fmap.
  intros (u & -> & Hu). apply elem_of_first_per_address in Hu.
  destruct (last_with_address _ _) as [r|] eqn:Hr; simpl; [|done].
  by apply last_with_address_Some in Hr as [_ Hr].
Qed.

Lemma elem_of_secondary_only t primary secondary :
  t ∈ secondary_only primary secondary →
  t ∈ identified secondary
  ∧ normalized t ∉ normalized <$> identified primary.
Proof.
  unfold secondary_only. intros Ht. apply elem_of_first_per_address in Ht.
  by apply list_elem_of_filter in Ht as [Hnew Ht].
Qed.

Lemma secondary_only_keys k primary secondary :
  k ∈ normalized <$> secondary_only primary secondary ↔
  k ∈ normalized <$> identified secondary
  ∧ k ∉ normalized <$> identified primary.
Proof.
  unfold secondary_only. rewrite elem_of_first_per_address_keys.
  rewrite !list_elem_of_fmap. split.
  - intros (u & -> & Hu). apply list_elem_of_filter in Hu as [Hnew Hu].
    split; [by exists u|]. by rewrite <- list_elem_of_fmap.
  - intros [(u & -> & Hu) Hnew]. exists u. split; [done|].
    apply list_elem_of_filter. split; [|done]. by rewrite list_elem_of_fmap.
Qed.

Lemma elem_of_merge_keys k dexData jupData :
  k ∈ normalized <$> mergeTokenData dexData jupData ↔
  k ∈ normalized <$> identified dexData
  ∨ k ∈ normalized <$> identified jupData.
Proof.
  rewrite mergeTokenData_structure, fmap_app, elem_of_app.
  rewrite primary_contribution_keys, elem_of_first_per_address_keys.
  rewrite secondary_only_keys.
  destruct (decide (k ∈ normalized <$> identified dexData)) as [Hd|Hd].
  - split; intros _; by left.
  - split; [intros [?|[? _]]|intros [?|?]]; (by left) || (by right).
Qed.

Lemma NoDup_merge_keys dexData jupData :
  NoDup (normalized <$> mergeTokenData dexData jupData).
Proof.
  rewrite mergeTokenData_structure, fmap_app. apply NoDup_app.
  split; [|split].
  - rewrite primary_contribution_keys. apply NoDup_first_per_address.
  - intros k. rewrite primary_contribution_keys.
    rewrite elem_of_first_per_address_keys, secondary_only_keys.
    by intros Hk [_ Hnew].
  - apply NoDup_first_per_address.
Qed.

Lemma merge_identified dexData jupData :
  Forall (λ t, token_address t ≠ "") (mergeTokenData dexData jupData).
Proof.
  apply Forall_forall. intros t. rewrite mergeTokenData_structure, elem_of_app.
  intros [Ht|Ht].
  - apply elem_of_primary_contribution in Ht.
    by apply list_elem_of_filter in Ht as [Ht _].
  - apply elem_of_secondary_only in Ht as [Ht _].
    by apply list_elem_of_filter in Ht as [Ht _].
Qed.

Lemma secondary_only_nil primary : secondary_only primary [] = [].
Proof. done. Qed.

Lemma mergeTokenData_clean_nil primary :
  Forall (λ t, token_address t ≠ "") primary →
  NoDup (normalized <$> primary) →
  mergeTokenData primary [] = primary.
Proof.
  intros Haddr Hnodup. unfold mergeTokenData. simpl.
  rewrite foldl_addDexToken, identified_clean by done.
  rewrite dex_loop_distinct by done. unfold JsMap.values. simpl.
  rewrite <- list_fmap_compose. apply list_fmap_id.
Qed.

Lemma mergeTokenData_clean primary secondary :
  Forall (λ t, token_address t ≠ "") primary →
  NoDup (normalized <$> primary) →
  mergeTokenData primary secondary =
  primary ++ secondary_only primary secondary.
Proof.
  intros Haddr Hnodup. rewrite mergeTokenData_structure. f_equal.
  rewrite <- (mergeTokenData_clean_nil primary) at 2 by done.
  by rewrite mergeTokenData_structure, secondary_only_nil, app_nil_r.
Qed.

(** X1.  Every record of the merged output is a record of one of the two
    inputs and has a non-empty address: the merge invents no record and lets
    no record without an address through. *)
Theorem merge_records_from_inputs dexData jupData :
  Forall (λ t, (t ∈ dexData ∨ t ∈ jupData) ∧ token_address t ≠ "")
         (mergeTokenData dexData jupData).
Proof.
  apply Forall_forall. intros t. rewrite mergeTokenData_structure, elem_of_app.
  intros [Ht|Ht].
  - apply elem_of_primary_contribution in Ht.
    apply list_elem_of_filter in Ht as [Haddr Ht]. split; [by left|done].
  - apply elem_of_secondary_only in Ht as [Ht _].
    apply list_elem_of_filter in Ht as [Haddr Ht]. split; [by right|done].
Qed.

(** X2.  No address is lost: the normalized addresses of the merged output
    are exactly those of the primary sequence together with those of the
    secondary sequence. *)
Theorem merge_addresses_union dexData jupData :
  list_to_set (normalized <$> mergeTokenData dexData jupData) =
  addresses dexData ∪ addresses jupData.
Proof.
  apply set_eq. intros k. unfold addresses.
  by rewrite elem_of_union, !elem_of_list_to_set, elem_of_merge_keys.
Qed.

(** X3.  Without primary data the merged output is the secondary sequence
    without its records that lack an address and without every record whose
    normalized address occurred earlier in it. *)
Theorem merge_empty_primary jupData :
  mergeTokenData [] jupData = first_per_address (identified jupData).
Proof.
  rewrite mergeTokenData_structure. unfold secondary_only. simpl. f_equal.
  apply filter_all, Forall_forall. intros s _. apply not_elem_of_nil.
Qed.

(** X4.  Two sequences in which every record has an address, no normalized
    address occurs twice and none occurs in both are merged by putting the
    secondary sequence after the primary one. *)
Theorem merge_disjoint_concat dexData jupData :
  Forall (λ t, token_address t ≠ "") dexData →
  Forall (λ t, token_address t ≠ "") jupData →
  NoDup ((normalized <$> dexData) ++ (normalized <$> jupData)) →
  mergeTokenData dexData jupData = dexData ++ jupData.
Proof.
  intros Hdex Hjup Hnodup.
  apply NoDup_app in Hnodup as (Hnd & Hdisj & Hnj).
  rewrite mergeTokenData_clean by done. f_equal. unfold secondary_only.
  rewrite !identified_clean by done.
  rewrite filter_all; [by apply first_per_address_distinct|].
  apply Forall_forall. intros s Hs Hin. apply (Hdisj _ Hin).
  apply list_elem_of_fmap. by exists s.
Qed.

(** X5.  The merged output absorbs its inputs: merging it again, as the
    primary sequence, with nothing, with the same secondary sequence or with
    the sequence that was the primary one gives it back unchanged. *)
Theorem merge_absorbs_inputs dexData jupData :
  let merged := mergeTokenData dexData jupData in
  mergeTokenData merged [] = merged
  ∧ mergeTokenData merged jupData = merged
  ∧ mergeTokenData merged dexData = merged.
Proof.
  intros merged.
  assert (Habsorb : ∀ secondary,
    (∀ s, s ∈ identified secondary →
          normalized s ∈ normalized <$> identified dexData
          ∨ normalized s ∈ normalized <$> identified jupData) →
    mergeTokenData merged secondary = merged).
  { intros secondary Hsec.
    rewrite mergeTokenData_clean
      by (apply merge_identified || apply NoDup_merge_keys).
    unfold secondary_only.
    rewrite filter_none; [apply app_nil_r|].
    apply Forall_forall. intros s Hs Hnew. apply Hnew. rewrite identified_clean by apply merge_identified.
    apply elem_of_merge_keys. by apply Hsec. }
  split; [|split]; apply Habsorb.
  - intros s Hs. by apply elem_of_nil in Hs.
  - intros s Hs. right. apply list_elem_of_fmap. by exists s.
  - intros s Hs. left. apply list_elem_of_fmap. by exists s.
Qed.

(** X20.  Within the primary sequence a repeated address is last-wins,
    whatever the secondary sequence holds: the merged output has exactly one
    record of the address of a primary record, the last primary record of
    that address. *)
Theorem primary_duplicates_last_wins dexData jupData p :
  p ∈ dexData → token_address p ≠ "" →
  ∃ r, last_with_address (normalized p) (identified dexData) = Some r
       ∧ with_address (normalized p) (mergeTokenData dexData jupData) = [r].
Proof.
  intros Hp Haddr.
  assert (Hin : normalized p ∈ normalized <$> identified dexData).
  { apply list_elem_of_fmap. exists p. split; [done|].
    by apply list_elem_of_filter. }
  destruct (last_with_address (normalized p) (identified dexData))
    as [r|] eqn:Hr.
  - exists r. split; [done|].
    rewrite mergeTokenData_structure, with_address_app.
    rewrite (with_address_primary_contribution _ _ r) by done.
    by rewrite with_address_secondary_only_primary.
  - apply with_address_nonempty in Hin. unfold last_with_address in Hr.
    by apply last_None in Hr.
Qed.

(** X6.  Secondary data never changes or reorders what the primary sequence
    contributes: the output for the primary sequence alone is a prefix of the
    output with any secondary sequence, and the merged output has at most as
    many records as the two inputs together. *)
Theorem merge_extends_primary dexData jupData :
  mergeTokenData dexData [] `prefix_of` mergeTokenData dexData jupData
  ∧ (length (mergeTokenData dexData jupData)
     ≤ length dexData + length jupData)%nat.
Proof.
  rewrite !mergeTokenData_structure, secondary_only_nil, app_nil_r. split.
  - by apply prefix_app_r.
  - rewrite length_app. unfold primary_contribution, secondary_only.
    rewrite length_fmap.
    pose proof (length_first_per_address_le (identified dexData)).
    pose proof (length_first_per_address_le
      (filter (λ s, normalized s ∉ normalized <$> identified dexData)
              (identified jupData))).
    pose proof (length_filter
      (λ s, normalized s ∉ normalized <$> identified dexData)
      (identified jupData)).
    pose proof (length_filter (λ t, token_address t ≠ "") dexData).
    pose proof (length_filter (λ t, token_address t ≠ "") jupData).
    unfold identified in *. lia.
Qed.

(** ** The cache service *)

Lemma elapse_elapse d e w : elapse d (elapse e w) = elapse (e + d) w.
Proof. unfold elapse. simpl. f_equal. lia. Qed.

(** X7.  What [set] stores, [get] returns until the time to live given to
    [set] (30 seconds when none is given) has passed, and not afterwards.
    Reading does not prolong the entry: a second read is answered by the time
    passed since the write alone.  (Redis refuses a time to live that is not
    positive.) *)
Theorem cache_set_then_get key value ttl w db :
  redis w = Ready db →
  0 < default 30 ttl →
  ∃ w1,
    CacheService.set key value ttl w = (Ok (), w1)
    ∧ (∀ d, CacheService.get key (elapse d w1) =
            (Ok (if decide (d < default 30 ttl) then Some value else None),
             elapse d w1))
    ∧ (∀ d1 d2,
         CacheService.get key
           (elapse d2 (CacheService.get key (elapse d1 w1)).2) =
         (Ok (if decide (d1 + d2 < default 30 ttl) then Some value else None),
          elapse (d1 + d2) w1)).
Proof.
  intros Hredis _. unfold CacheService.set. rewrite Hredis.
  eexists. split; [reflexivity|].
  assert (Hget : ∀ d w1,
    w1 = with_redis
           (Ready (CacheService.client_set db (now w) key value
                     (default (cacheTTL config) ttl))) w →
    CacheService.get key (elapse d w1) =
      (Ok (if decide (d < default 30 ttl) then Some value else None),
       elapse d w1)).
  { intros d w1 ->. unfold CacheService.get. simpl. rewrite client_get_set.
    do 2 f_equal.
    destruct (decide (now w + d < now w + default 30 ttl)),
             (decide (d < default 30 ttl)); (done || lia). }
  split.
  - intros d. by apply Hget.
  - intros d1 d2. rewrite (Hget d1) by done. cbn [snd].
    rewrite elapse_elapse. by apply Hget.
Qed.

(** X8.  [set] touches one key only: what [get] returns for any other key,
    at any later time, is what it would have returned without the write. *)
Theorem cache_set_other_key key key' value ttl w d :
  key' ≠ key →
  (CacheService.get key' (elapse d (CacheService.set key value ttl w).2)).1 =
  (CacheService.get key' (elapse d w)).1.
Proof.
  intros Hne. unfold CacheService.set, CacheService.get.
  destruct (redis w) as [db|] eqn:Hredis; simpl; rewrite Hredis; [|done].
  unfold CacheService.client_get, CacheService.client_set.
  by rewrite lookup_insert_ne.
Qed.

(** X9.  The last write wins entirely: a second [set] on a key replaces the
    value and the expiry time of the first, which leaves no trace. *)
Theorem cache_set_overwrites key v1 ttl1 v2 ttl2 w d :
  0 < default 30 ttl2 →
  (CacheService.set key v2 ttl2
     (elapse d (CacheService.set key v1 ttl1 w).2)).2 =
  (CacheService.set key v2 ttl2 (elapse d w)).2.
Proof.
  intros _. unfold CacheService.set.
  destruct (redis w) as [db|] eqn:Hredis; simpl; rewrite Hredis; [|done].
  unfold with_redis, elapse, CacheService.client_set. simpl.
  by rewrite insert_insert_eq.
Qed.

(** ** The orchestrator *)

Section orchestrator_further.
Context `{JSON}.

(** What a call returns depends on the world only through the cache entry
    of its query and through what the adapters resolve to. *)
Lemma getAggregatedData_result_ext query w w' db db' :
  redis w = Ready db → redis w' = Ready db' →
  CacheService.client_get db (now w) (cacheKey query) =
    CacheService.client_get db' (now w') (cacheKey query) →
  upstream w = upstream w' →
  (getAggregatedData query w).1 = (getAggregatedData query w').1.
Proof.
  intros Hredis Hredis' Hget Hup.
  destruct (CacheService.client_get db (now w) (cacheKey query))
    as [blob|] eqn:Hblob.
  - destruct (string_truthy blob) eqn:Htruthy.
    + rewrite (getAggregatedData_hit _ w db blob) by done.
      by rewrite (getAggregatedData_hit _ w' db' blob) by done.
    + rewrite (getAggregatedData_miss _ w db);
        [|done|intros b Hb; congruence].
      rewrite (getAggregatedData_miss _ w' db');
        [|done|intros b Hb; congruence].
      simpl. unfold fresh_tokens. by rewrite Hup.
  - rewrite (getAggregatedData_miss _ w db);
      [|done|intros b Hb; congruence].
    rewrite (getAggregatedData_miss _ w' db');
      [|done|intros b Hb; congruence].
    simpl. unfold fresh_tokens. by rewrite Hup.
Qed.

Lemma cacheKey_inj query query' : cacheKey query = cacheKey query' → query = query'.
Proof. unfold cacheKey. intros Heq. by simplify_eq/=. Qed.

End orchestrator_further.


(** X11.  Expiry: once 30 seconds or more have passed since a miss wrote
    the entry, the next call for the query calls both adapters again and
    writes a new entry that expires 30 seconds after that call. *)
Theorem ttl_expiry_refetches `{JSON} query w db d :
  redis w = Ready db →
  (∀ blob, CacheService.client_get db (now w) (cacheKey query) = Some blob →
           string_truthy blob = false) →
  30 ≤ d →
  ∃ w1 blob db2 r2 w2,
    getAggregatedData query w = (Ok (tokens_value (fresh_tokens query w)), w1)
    ∧ getAggregatedData query (elapse d w1) = (Ok r2, w2)
    ∧ calls w2 = (Jupiter, query) :: (DexScreener, query) :: calls w1
    ∧ redis w2 = Ready db2
    ∧ db2 !! cacheKey query = Some (blob, now w + d + 30).
Proof.
  intros Hredis Hmiss Hd.
  exists (after_miss query w db),
         (JSON_stringify (fresh_tokens query (elapse d (after_miss query w db)))).
  eexists _, _, _. split; [by apply getAggregatedData_miss|].
  split; [|split; [|split]].
  - apply getAggregatedData_miss; [done|]. intros blob. simpl.
    rewrite client_get_set, decide_False by lia. discriminate.
  - done.
  - done.
  - unfold CacheService.client_set. by rewrite lookup_insert_eq.
Qed.

(** X12.  A cached string that [JSON.parse] rejects makes the call reject
    with the parse error.  No adapter is called and the entry stays, so every
    call for the query rejects until the entry expires, and the route answers
    500 meanwhile. *)
Theorem corrupt_blob_rejects `{JSON} query w db blob expires e :
  redis w = Ready db →
  db !! cacheKey query = Some (blob, expires) →
  string_truthy blob = true →
  JSON_parse blob = Err e →
  ∀ d, now w + d < expires →
    getAggregatedData query (elapse d w) = (Err e, elapse d w)
    ∧ (query ≠ "" →
       api_tokens (Some query) (elapse d w) =
         ((500, Object [("error", Str "Internal Server Error")]),
          elapse d w)).
Proof.
  intros Hredis Hdb Hblob Hparse d Hd.
  assert (Hcall : getAggregatedData query (elapse d w) = (Err e, elapse d w)).
  { rewrite <- Hparse. apply (getAggregatedData_hit _ _ db); [done| |done].
    unfold CacheService.client_get. simpl. by rewrite Hdb, decide_True. }
  split; [done|]. intros Hquery%string_truthy_spec. unfold api_tokens.
  by rewrite Hquery, Hcall.
Qed.

(** X13.  Queries do not interfere: serving one query leaves what a call
    for any other query returns as it was. *)
Theorem query_isolation `{JSON} query query' w :
  query ≠ query' →
  (getAggregatedData query' (getAggregatedData query w).2).1 =
  (getAggregatedData query' w).1.
Proof.
  intros Hne. destruct (getAggregatedData query w) as [[r|e] w1] eqn:Hcall.
  - apply getAggregatedData_Ok in Hcall
      as [[-> _]|(db & Hredis & -> & _)]; [done|].
    cbn [snd].
    eapply getAggregatedData_result_ext;
      [reflexivity|exact Hredis| |reflexivity].
    simpl. unfold CacheService.client_get, CacheService.client_set.
    rewrite lookup_insert_ne; [done|].
    intros Heq. by apply Hne, cacheKey_inj.
  - destruct (redis w) as [db|] eqn:Hredis.
    + destruct (CacheService.client_get db (now w) (cacheKey query))
        as [blob|] eqn:Hget.
      * destruct (string_truthy blob) eqn:Hblob.
        -- rewrite (getAggregatedData_hit _ _ db blob) in Hcall by done.
           by injection Hcall as _ <-.
        -- rewrite (getAggregatedData_miss _ _ db) in Hcall;
             [done|done|intros b Hb; congruence].
      * rewrite (getAggregatedData_miss _ _ db) in Hcall;
          [done|done|intros b Hb; congruence].
    + rewrite getAggregatedData_unreachable in Hcall by done.
      by injection Hcall as _ <-.
Qed.

Lemma elapse_after_miss_0 `{JSON} query w db :
  elapse 0 (after_miss query w db) = after_miss query w db.
Proof. unfold elapse, after_miss. simpl. f_equal. lia. Qed.

Lemma repeated_calls_after_miss `{JSON} query w db delays e :
  Forall (λ d, 0 ≤ d) delays →
  e + foldr Z.add 0 delays < 30 →
  repeated_calls query delays (elapse e (after_miss query w db)) =
    (replicate (length delays)
       (Ok (toJSON (tokens_value (fresh_tokens query w)))),
     elapse (e + foldr Z.add 0 delays) (after_miss query w db)).
Proof.
  intros Hpos. revert e.
  induction Hpos as [|d delays Hd Hpos IH]; intros e Hsum; simpl in *.
  - by rewrite Z.add_0_r.
  - rewrite elapse_elapse.
    assert (0 ≤ foldr Z.add 0 delays).
    { clear -Hpos. induction Hpos; simpl; lia. }
    rewrite getAggregatedData_after_miss by (simpl; lia).
    rewrite IH by lia. by rewrite Z.add_assoc.
Qed.

(** X14.  Hits do not renew the entry: however many calls follow a miss
    within 30 seconds of it, each returns the cached result, none calls an
    adapter and none rewrites the entry, whose expiry stays 30 seconds after
    the miss. *)
Theorem hits_do_not_renew `{JSON} query w db delays :
  Forall (λ d, 0 ≤ d) delays →
  foldr Z.add 0 delays < 30 →
  let '(results, w') :=
    repeated_calls query delays (after_miss query w db) in
  results = replicate (length delays)
              (Ok (toJSON (tokens_value (fresh_tokens query w))))
  ∧ calls w' = calls (after_miss query w db)
  ∧ redis w' = redis (after_miss query w db)
  ∧ now w' = now w + foldr Z.add 0 delays.
Proof.
  intros Hpos Hsum.
  rewrite <- (elapse_after_miss_0 query w db).
  by rewrite repeated_calls_after_miss.
Qed.

(** X15.  The periodic push and the route share one cache entry: after a
    push that went to the adapters, a request without [q], with an empty [q]
    or with [q=SOL] less than 30 seconds later is answered 200 from the cache
    without any adapter call; and after such a request went to the adapters,
    a push less than 30 seconds later emits the cached result without any
    adapter call. *)
Theorem push_and_route_share_cache `{JSON} w db d :
  redis w = Ready db →
  (∀ blob, CacheService.client_get db (now w) (cacheKey "SOL") = Some blob →
           string_truthy blob = false) →
  d < 30 →
  let cached := toJSON (tokens_value (fresh_tokens "SOL" w)) in
  (∀ q, q = None ∨ q = Some "" ∨ q = Some "SOL" →
        api_tokens q (elapse d (pushUpdate w).2) =
          ((200, cached), elapse d (pushUpdate w).2))
  ∧ (∀ q, q = None ∨ q = Some "" ∨ q = Some "SOL" →
          pushUpdate (elapse d (api_tokens q w).2) =
            ([("price-update", cached)], elapse d (api_tokens q w).2))
  ∧ calls (pushUpdate w).2 = (Jupiter, "SOL") :: (DexScreener, "SOL") :: calls w.
Proof.
  intros Hredis Hmiss Hd cached.
  assert (Hfirst : getAggregatedData "SOL" w =
                   (Ok (tokens_value (fresh_tokens "SOL" w)),
                    after_miss "SOL" w db))
    by (by apply getAggregatedData_miss).
  assert (Hsecond := getAggregatedData_after_miss "SOL" w db d Hd).
  assert (Hpush : pushUpdate w =
                  ([("price-update", tokens_value (fresh_tokens "SOL" w))],
                   after_miss "SOL" w db))
    by (unfold pushUpdate, pushQuery; by rewrite Hfirst).
  assert (Hroute : ∀ q w', q = None ∨ q = Some "" ∨ q = Some "SOL" →
            api_tokens q w' =
            match getAggregatedData "SOL" w' with
            | (Ok data, w'') => ((200, data), w'')
            | (Err _, w'') =>
                ((500, Object [("error", Str "Internal Server Error")]), w'')
            end)
    by (by intros q w' [->|[->| ->]]).
  split; [|split].
  - intros q Hq. by rewrite Hpush, (Hroute q) by done; cbn [snd]; rewrite Hsecond.
  - intros q Hq. rewrite (Hroute q w), Hfirst by done. cbn [snd].
    unfold pushUpdate, pushQuery. by rewrite Hsecond.
  - by rewrite Hpush.
Qed.

(** ** The source adapters *)

Lemma map_callback_Ok {A B} (f : A → Settled B) (l : list A) bs :
  map_callback f l = Ok bs → Forall2 (λ a b, f a = Ok b) l bs.
Proof.
  revert bs. induction l as [|a l IH]; intros bs; simpl.
  - intros [= <-]. constructor.
  - destruct (f a) as [b|e] eqn:Hfa; [|discriminate]. simpl.
    destruct (map_callback f l) as [bs'|e] eqn:Hl; [|discriminate]. simpl.
    intros [= <-]. constructor; [done|]. by apply IH.
Qed.

Lemma map_callback_total {A B} (f : A → Settled B) (g : A → B) (l : list A) :
  Forall (λ a, f a = Ok (g a)) l → map_callback f l = Ok (g <$> l).
Proof.
  induction 1 as [|a l Ha Hl IH]; [done|]. cbn [map_callback].
  by rewrite Ha, Settled_bind_Ok, IH, Settled_bind_Ok.
Qed.

Lemma member_field v name :
  v ≠ Null → member (Some v) name = Ok (field name v).
Proof. by destruct v. Qed.

Lemma or_else_defaulted a d :
  or_else a d = d ∨ truthy (Some (or_else a d)) = true.
Proof.
  destruct a as [v|]; [|by left]. unfold or_else.
  destruct (truthy (Some v)) eqn:Hv; [by right|by left].
Qed.

Section fetcher_further.
Context `{Coercions}.

Lemma jupiterToken_not_Null token :
  token ≠ Null → jupiterToken token = Ok (jupiterRecordOf token).
Proof.
  intros Htoken. unfold jupiterToken.
  by rewrite !member_field, !Settled_bind_Ok by done.
Qed.

Lemma jupiterToken_Ok token r :
  jupiterToken token = Ok r → r = jupiterRecordOf token.
Proof.
  destruct token; [done|..]; rewrite jupiterToken_not_Null by done;
    congruence.
Qed.

(** The tokens an adapter returns come from [map] over an array, or there
    are none. *)
Lemma fetchJupiterData_Ok net query tokens :
  fetchJupiterData net query = Ok tokens →
  tokens = []
  ∨ ∃ st items,
      net (jupiterUrl query) = HttpResponse st (Array items)
      ∧ map_callback jupiterToken items = Ok tokens.
Proof.
  unfold fetchJupiterData, fetchJupiterData_try, axios_get.
  destruct (net (jupiterUrl query)) as [|st body] eqn:Hnet;
    [by intros [= <-]; left|].
  destruct (decide (200 ≤ st < 300)); [|by intros [= <-]; left].
  rewrite Settled_bind_Ok. cbn [data].
  destruct (truthy (Some body) && isArray body) eqn:Hcond;
    [|by intros [= <-]; left].
  apply andb_true_iff in Hcond as [_ Harray].
  destruct body as [|b|n|s|items|fields]; try discriminate.
  cbn [call_map].
  destruct (map_callback jupiterToken items) as [ts|e] eqn:Hmap.
  - intros [= <-]. right. by exists st, items.
  - intros [= <-]. by left.
Qed.

Lemma fetchDexScreenerData_Ok net query tokens :
  fetchDexScreenerData net query = Ok tokens →
  tokens = []
  ∨ ∃ st body items,
      net (dexScreenerUrl query) = HttpResponse st body
      ∧ member (Some body) "pairs" = Ok (Some (Array items))
      ∧ map_callback dexScreenerToken items = Ok tokens.
Proof.
  unfold fetchDexScreenerData, fetchDexScreenerData_try, axios_get.
  destruct (net (dexScreenerUrl query)) as [|st body] eqn:Hnet;
    [by intros [= <-]; left|].
  destruct (decide (200 ≤ st < 300)); [|by intros [= <-]; left].
  rewrite Settled_bind_Ok. cbn [data].
  destruct (truthy (Some body)); [|by intros [= <-]; left].
  destruct (member (Some body) "pairs") as [pairs|e] eqn:Hpairs;
    [|by intros [= <-]; left].
  rewrite Settled_bind_Ok.
  destruct (truthy pairs); [|by intros [= <-]; left].
  destruct pairs as [[|b|n|s|items|fields]|]; try (by intros [= <-]; left).
  cbn [call_map].
  destruct (map_callback dexScreenerToken items) as [ts|e] eqn:Hmap.
  - intros [= <-]. right. by exists st, body, items.
  - intros [= <-]. by left.
Qed.

End fetcher_further.

Section adapter_records.
Context `{Coercions}.

Lemma dexScreenerToken_Ok pair r :
  dexScreenerToken pair = Ok r → dexScreenerShape r.
Proof.
  unfold dexScreenerToken.
  repeat match goal with
         | |- (?e ≫= _) = Ok _ → _ =>
             destruct e as [?|?] eqn:?;
             [rewrite Settled_bind_Ok|discriminate]
         end.
  intros [= <-]. unfold dexScreenerShape, defaulted.
  split; [reflexivity|]. split; [by eexists|].
  repeat split; (eexists; split; [reflexivity|apply or_else_defaulted]).
Qed.

Lemma jupiterRecordOf_shape token : jupiterShape (jupiterRecordOf token).
Proof.
  unfold jupiterShape, defaulted. split; [reflexivity|].
  split; [reflexivity|]. split; [by repeat constructor|].
  repeat split; (eexists; split; [reflexivity|apply or_else_defaulted]).
Qed.

End adapter_records.

(** X16.  Whatever the DexScreener response holds, every record the adapter
    returns has the ten properties of [TokenData], in their order, a number
    (possibly [NaN]) as [price_sol], and in each property filled with
    [x || default] a truthy value or the default: none of them is [null]. *)
Theorem dexscreener_records_shape `{Coercions} net query tokens :
  fetchDexScreenerData net query = Ok tokens →
  Forall dexScreenerShape tokens.
Proof.
  intros [->|(st & body & items & _ & _ & Hmap)]%fetchDexScreenerData_Ok;
    [constructor|].
  apply map_callback_Ok in Hmap.
  induction Hmap as [|pair r items tokens Hr _ IH]; constructor; [|done].
  by apply dexScreenerToken_Ok in Hr.
Qed.

(** X17.  Whatever the Jupiter response holds, every record the adapter
    returns has the ten properties of [TokenData], the protocol [Jupiter],
    0 in all six numeric properties, and as address, name and ticker a truthy
    value or the empty string. *)
Theorem jupiter_records_shape `{Coercions} net query tokens :
  fetchJupiterData net query = Ok tokens →
  Forall jupiterShape tokens.
Proof.
  intros [->|(st & items & _ & Hmap)]%fetchJupiterData_Ok; [constructor|].
  apply map_callback_Ok in Hmap.
  induction Hmap as [|token r items tokens Hr _ IH]; constructor; [|done].
  apply jupiterToken_Ok in Hr as ->. apply jupiterRecordOf_shape.
Qed.

(** X18.  All or nothing: when the response carries an array, an adapter
    returns either one record for each element of it or no record at all;
    it never returns a part of the array. *)
Theorem adapters_all_or_nothing `{Coercions} net query :
  (∀ st body items,
     net (dexScreenerUrl query) = HttpResponse st body →
     member (Some body) "pairs" = Ok (Some (Array items)) →
     ∃ tokens, fetchDexScreenerData net query = Ok tokens
               ∧ (tokens = [] ∨ length tokens = length items))
  ∧ (∀ st items,
       net (jupiterUrl query) = HttpResponse st (Array items) →
       ∃ tokens, fetchJupiterData net query = Ok tokens
                 ∧ (tokens = [] ∨ length tokens = length items)).
Proof.
  split.
  - intros st body items Hnet Hpairs.
    destruct (try_catch_empty (fetchDexScreenerData_try net query))
      as [tokens Htokens].
    exists tokens. split; [done|].
    apply fetchDexScreenerData_Ok in Htokens
      as [->|(st' & body' & items' & Hnet' & Hpairs' & Hmap)]; [by left|].
    right. rewrite Hnet in Hnet'. injection Hnet' as <- <-.
    rewrite Hpairs in Hpairs'. injection Hpairs' as <-.
    apply map_callback_Ok in Hmap. symmetry. by eapply Forall2_length.
  - intros st items Hnet.
    destruct (try_catch_empty (fetchJupiterData_try net query))
      as [tokens Htokens].
    exists tokens. split; [done|].
    apply fetchJupiterData_Ok in Htokens
      as [->|(st' & items' & Hnet' & Hmap)]; [by left|].
    right. rewrite Hnet in Hnet'. injection Hnet' as <- <-.
    apply map_callback_Ok in Hmap. symmetry. by eapply Forall2_length.
Qed.

(** X19.  On a 2xx response whose body is an array without [null], the
    Jupiter adapter cannot fail: it returns one record for each element, in
    the order of the array, with the element's [address], [name] and [symbol]
    where they are truthy and the empty string where they are not. *)
Theorem jupiter_one_per_element `{Coercions} net query st items :
  net (jupiterUrl query) = HttpResponse st (Array items) →
  200 ≤ st < 300 →
  Null ∉ items →
  fetchJupiterData net query = Ok (jupiterRecordOf <$> items).
Proof.
  intros Hnet Hst Hnull. unfold fetchJupiterData, fetchJupiterData_try.
  rewrite (axios_get_success _ _ st (Array items)) by done.
  rewrite Settled_bind_Ok. cbn [data truthy isArray andb call_map].
  rewrite (map_callback_total _ jupiterRecordOf); [done|].
  apply Forall_forall. intros token Htoken. apply jupiterToken_not_Null.
  by intros ->.
Qed.

(** ** The further properties on the fixtures *)

Lemma merge_disjoint_concat_witness :
  mergeTokenData mockDexData [jupiterRecord "0x789" "Token C" "TKC"] =
  mockDexData ++ [jupiterRecord "0x789" "Token C" "TKC"].
Proof.
  apply (merge_disjoint_concat mockDexData
           [jupiterRecord "0x789" "Token C" "TKC"]).
  - by repeat constructor.
  - by repeat constructor.
  - compute_done.
Defined.

Lemma cache_set_then_get_witness :
  ∃ w1,
    CacheService.set "k" "v" (Some 5) coldWorld = (Ok (), w1)
    ∧ (∀ d, CacheService.get "k" (elapse d w1) =
            (Ok (if decide (d < 5) then Some "v" else None), elapse d w1))
    ∧ (∀ d1 d2,
         CacheService.get "k"
           (elapse d2 (CacheService.get "k" (elapse d1 w1)).2) =
         (Ok (if decide (d1 + d2 < 5) then Some "v" else None),
          elapse (d1 + d2) w1)).
Proof.
  apply (cache_set_then_get "k" "v" (Some 5) coldWorld ∅); reflexivity.
Defined.

Lemma cache_set_overwrites_witness :
  (CacheService.set "k" "new" (Some 5)
     (elapse 1 (CacheService.set "k" "old" None coldWorld).2)).2 =
  (CacheService.set "k" "new" (Some 5) (elapse 1 coldWorld)).2.
Proof.
  apply (cache_set_overwrites "k" "old" None "new" (Some 5) coldWorld 1).
  reflexivity.
Defined.

Lemma primary_duplicates_last_wins_witness :
  ∃ r, last_with_address (normalized later) (identified [earlier; later])
         = Some r
       ∧ with_address (normalized later)
           (mergeTokenData [earlier; later] mockJupData) = [r].
Proof.
  apply (primary_duplicates_last_wins [earlier; later] mockJupData later).
  - right. by left.
  - done.
Defined.

Lemma cache_set_other_key_witness :
  (CacheService.get "b"
     (elapse 1 (CacheService.set "a" "v" None coldWorld).2)).1 =
  (CacheService.get "b" (elapse 1 coldWorld)).1.
Proof. apply (cache_set_other_key "a" "b" "v" None coldWorld 1). discriminate. Defined.


Lemma ttl_expiry_refetches_witness :
  ∃ w1 blob db2 r2 w2,
    getAggregatedData "SOL" coldWorld =
      (Ok (tokens_value (fresh_tokens "SOL" coldWorld)), w1)
    ∧ getAggregatedData "SOL" (elapse 30 w1) = (Ok r2, w2)
    ∧ calls w2 = (Jupiter, "SOL") :: (DexScreener, "SOL") :: calls w1
    ∧ redis w2 = Ready db2
    ∧ db2 !! cacheKey "SOL" = Some (blob, 60).
Proof.
  apply (ttl_expiry_refetches "SOL" coldWorld ∅ 30).
  - reflexivity.
  - apply coldWorld_miss.
  - lia.
Defined.

Lemma corrupt_blob_rejects_witness :
  getAggregatedData "SOL" (elapse 0 corruptWorld) =
    (Err SyntaxError, elapse 0 corruptWorld)
  ∧ ("SOL" ≠ "" →
     api_tokens (Some "SOL") (elapse 0 corruptWorld) =
       ((500, Object [("error", Str "Internal Server Error")]),
        elapse 0 corruptWorld)).
Proof.
  apply (corrupt_blob_rejects "SOL" corruptWorld
           {[ "tokens_v5:SOL" := ("x", 30) ]} "x" 30 SyntaxError).
  - reflexivity.
  - by rewrite (lookup_singleton_eq (M := gmap string)).
  - reflexivity.
  - reflexivity.
  - reflexivity.
Defined.

Lemma query_isolation_witness :
  (getAggregatedData "DOGE" (getAggregatedData "SOL" coldWorld).2).1 =
  (getAggregatedData "DOGE" coldWorld).1.
Proof. apply (query_isolation "SOL" "DOGE" coldWorld). discriminate. Defined.

Lemma hits_do_not_renew_witness :
  let '(results, w') :=
    repeated_calls "SOL" [10; 10; 5] (after_miss "SOL" coldWorld ∅) in
  results = replicate 3
              (Ok (toJSON (tokens_value (fresh_tokens "SOL" coldWorld))))
  ∧ calls w' = calls (after_miss "SOL" coldWorld ∅)
  ∧ redis w' = redis (after_miss "SOL" coldWorld ∅)
  ∧ now w' = 25.
Proof.
  apply (hits_do_not_renew "SOL" coldWorld ∅ [10; 10; 5]).
  - repeat constructor; lia.
  - reflexivity.
Defined.

Lemma push_and_route_share_cache_witness :
  let cached := toJSON (tokens_value (fresh_tokens "SOL" coldWorld)) in
  (∀ q, q = None ∨ q = Some "" ∨ q = Some "SOL" →
        api_tokens q (elapse 10 (pushUpdate coldWorld).2) =
          ((200, cached), elapse 10 (pushUpdate coldWorld).2))
  ∧ (∀ q, q = None ∨ q = Some "" ∨ q = Some "SOL" →
          pushUpdate (elapse 10 (api_tokens q coldWorld).2) =
            ([("price-update", cached)],
             elapse 10 (api_tokens q coldWorld).2))
  ∧ calls (pushUpdate coldWorld).2 =
      [(Jupiter, "SOL"); (DexScreener, "SOL")].
Proof.
  apply (push_and_route_share_cache coldWorld ∅ 10).
  - reflexivity.
  - apply coldWorld_miss.
  - reflexivity.
Defined.

Lemma dexscreener_records_shape_witness :
  ∃ tokens,
    fetchDexScreenerData exampleNetwork "SOL" = Ok tokens
    ∧ length tokens = 2%nat
    ∧ Forall dexScreenerShape tokens.
Proof.
  eexists. split; [apply fetchDexScreenerData_example|].
  split; [reflexivity|].
  apply (dexscreener_records_shape exampleNetwork "SOL").
  apply fetchDexScreenerData_example.
Defined.

Lemma jupiter_items_not_Null : Null ∉ jupiterItems.
Proof.
  intros Hin. unfold jupiterItems in Hin.
  repeat (apply elem_of_cons in Hin as [Hin|Hin]; [discriminate|]).
  by apply elem_of_nil in Hin.
Qed.

Lemma jupiter_one_per_element_witness :
  fetchJupiterData jupiterNetwork "SOL" =
  Ok [ TokenData_value (jupiterRecord "0x789" "Token C" "TKC");
       TokenData_value (jupiterRecord "" "" "");
       TokenData_value (jupiterRecord "" "" "") ].
Proof.
  refine (jupiter_one_per_element jupiterNetwork "SOL" 200 jupiterItems
            eq_refl _ jupiter_items_not_Null).
  lia.
Defined.

Lemma jupiter_records_shape_witness :
  Forall jupiterShape
    [ TokenData_value (jupiterRecord "0x789" "Token C" "TKC");
      TokenData_value (jupiterRecord "" "" "");
      TokenData_value (jupiterRecord "" "" "") ].
Proof.
  apply (jupiter_records_shape jupiterNetwork "SOL").
  vm_compute. reflexivity.
Defined.

Lemma adapters_all_or_nothing_witness :
  (∃ tokens, fetchDexScreenerData exampleNetwork "SOL" = Ok tokens
             ∧ (tokens = [] ∨ length tokens = 2%nat))
  ∧ (∃ tokens, fetchJupiterData jupiterNetwork "SOL" = Ok tokens
               ∧ (tokens = [] ∨ length tokens = 3%nat)).
Proof.
  destruct (adapters_all_or_nothing exampleNetwork "SOL") as [Hdex _].
  destruct (adapters_all_or_nothing jupiterNetwork "SOL") as [_ Hjup].
  split.
  - exact (Hdex 200 exampleDexScreenerBody _ eq_refl eq_refl).
  - exact (Hjup 200 jupiterItems eq_refl).
Defined.
